(** * Cursor-context deduction of gocode (suggest/cursorcontext.go)

    A shallow embedding of the token iterator, the bracket balancer, the two
    extractors and [deduce_cursor_context_helper], together with the parts of
    Go's [go/token] and [go/scanner] packages that the file relies on.

    Go's [int] is modelled by [Z]: every integer of the file is an index into,
    or a distance inside, a buffer held in memory, hence far from 2^63.
    Go strings are byte strings and are modelled by [string]. *)

From Stdlib Require Import ZArith List String Ascii Bool Lia.
Import ListNotations.
Open Scope string_scope.
Open Scope list_scope.
Open Scope Z_scope.

(** ** go/token: the token kinds *)

Inductive Token : Set :=
  | ILLEGAL | EOF | COMMENT
  | IDENT | INT | FLOAT | IMAG | CHAR | STRING
  | ADD | SUB | MUL | QUO | REM
  | AND | OR | XOR | SHL | SHR | AND_NOT
  | ADD_ASSIGN | SUB_ASSIGN | MUL_ASSIGN | QUO_ASSIGN | REM_ASSIGN
  | AND_ASSIGN | OR_ASSIGN | XOR_ASSIGN | SHL_ASSIGN | SHR_ASSIGN
  | AND_NOT_ASSIGN
  | LAND | LOR | ARROW | INC | DEC
  | EQL | LSS | GTR | ASSIGN | NOT
  | NEQ | LEQ | GEQ | DEFINE | ELLIPSIS
  | LPAREN | LBRACK | LBRACE | COMMA | PERIOD
  | RPAREN | RBRACK | RBRACE | SEMICOLON | COLON
  | BREAK | CASE | CHAN | CONST | CONTINUE
  | DEFAULT | DEFER | ELSE | FALLTHROUGH | FOR
  | FUNC | GO | GOTO | IF | IMPORT
  | INTERFACE | MAP | PACKAGE | RANGE | RETURN
  | SELECT | STRUCT | SWITCH | TYPE | VAR
  | TILDE.

(** [token.Token] is an [int]; the constants are numbered by [iota], the
    unexported markers [literal_beg] (3), [literal_end] (10), [operator_beg]
    (11), [operator_end] (59), [keyword_beg] (60), [keyword_end] (86) and
    [additional_beg] (87) taking a number each. *)
Definition Token_code (t : Token) : Z :=
  match t with
  | ILLEGAL => 0 | EOF => 1 | COMMENT => 2
  | IDENT => 4 | INT => 5 | FLOAT => 6 | IMAG => 7 | CHAR => 8 | STRING => 9
  | ADD => 12 | SUB => 13 | MUL => 14 | QUO => 15 | REM => 16
  | AND => 17 | OR => 18 | XOR => 19 | SHL => 20 | SHR => 21 | AND_NOT => 22
  | ADD_ASSIGN => 23 | SUB_ASSIGN => 24 | MUL_ASSIGN => 25 | QUO_ASSIGN => 26
  | REM_ASSIGN => 27
  | AND_ASSIGN => 28 | OR_ASSIGN => 29 | XOR_ASSIGN => 30 | SHL_ASSIGN => 31
  | SHR_ASSIGN => 32 | AND_NOT_ASSIGN => 33
  | LAND => 34 | LOR => 35 | ARROW => 36 | INC => 37 | DEC => 38
  | EQL => 39 | LSS => 40 | GTR => 41 | ASSIGN => 42 | NOT => 43
  | NEQ => 44 | LEQ => 45 | GEQ => 46 | DEFINE => 47 | ELLIPSIS => 48
  | LPAREN => 49 | LBRACK => 50 | LBRACE => 51 | COMMA => 52 | PERIOD => 53
  | RPAREN => 54 | RBRACK => 55 | RBRACE => 56 | SEMICOLON => 57 | COLON => 58
  | BREAK => 61 | CASE => 62 | CHAN => 63 | CONST => 64 | CONTINUE => 65
  | DEFAULT => 66 | DEFER => 67 | ELSE => 68 | FALLTHROUGH => 69 | FOR => 70
  | FUNC => 71 | GO => 72 | GOTO => 73 | IF => 74 | IMPORT => 75
  | INTERFACE => 76 | MAP => 77 | PACKAGE => 78 | RANGE => 79 | RETURN => 80
  | SELECT => 81 | STRUCT => 82 | SWITCH => 83 | TYPE => 84 | VAR => 85
  | TILDE => 88
  end.

(** The conversion [token.Token(c)], on the codes of the constants. *)
Definition Token_of_code (c : Z) : Token :=
  match c with
  | 1 => EOF | 2 => COMMENT
  | 4 => IDENT | 5 => INT | 6 => FLOAT | 7 => IMAG | 8 => CHAR | 9 => STRING
  | 12 => ADD | 13 => SUB | 14 => MUL | 15 => QUO | 16 => REM
  | 17 => AND | 18 => OR | 19 => XOR | 20 => SHL | 21 => SHR | 22 => AND_NOT
  | 23 => ADD_ASSIGN | 24 => SUB_ASSIGN | 25 => MUL_ASSIGN | 26 => QUO_ASSIGN
  | 27 => REM_ASSIGN
  | 28 => AND_ASSIGN | 29 => OR_ASSIGN | 30 => XOR_ASSIGN | 31 => SHL_ASSIGN
  | 32 => SHR_ASSIGN | 33 => AND_NOT_ASSIGN
  | 34 => LAND | 35 => LOR | 36 => ARROW | 37 => INC | 38 => DEC
  | 39 => EQL | 40 => LSS | 41 => GTR | 42 => ASSIGN | 43 => NOT
  | 44 => NEQ | 45 => LEQ | 46 => GEQ | 47 => DEFINE | 48 => ELLIPSIS
  | 49 => LPAREN | 50 => LBRACK | 51 => LBRACE | 52 => COMMA | 53 => PERIOD
  | 54 => RPAREN | 55 => RBRACK | 56 => RBRACE | 57 => SEMICOLON | 58 => COLON
  | 61 => BREAK | 62 => CASE | 63 => CHAN | 64 => CONST | 65 => CONTINUE
  | 66 => DEFAULT | 67 => DEFER | 68 => ELSE | 69 => FALLTHROUGH | 70 => FOR
  | 71 => FUNC | 72 => GO | 73 => GOTO | 74 => IF | 75 => IMPORT
  | 76 => INTERFACE | 77 => MAP | 78 => PACKAGE | 79 => RANGE | 80 => RETURN
  | 81 => SELECT | 82 => STRUCT | 83 => SWITCH | 84 => TYPE | 85 => VAR
  | 88 => TILDE
  | _ => ILLEGAL
  end.

(** [==] on tokens. *)
Definition Token_eqb (a b : Token) : bool := Token_code a =? Token_code b.

(** [Token.String]: the entry of the [tokens] table. *)
Definition Token_String (t : Token) : string :=
  match t with
  | ILLEGAL => "ILLEGAL" | EOF => "EOF" | COMMENT => "COMMENT"
  | IDENT => "IDENT" | INT => "INT" | FLOAT => "FLOAT" | IMAG => "IMAG"
  | CHAR => "CHAR" | STRING => "STRING"
  | ADD => "+" | SUB => "-" | MUL => "*" | QUO => "/" | REM => "%"
  | AND => "&" | OR => "|" | XOR => "^" | SHL => "<<" | SHR => ">>"
  | AND_NOT => "&^"
  | ADD_ASSIGN => "+=" | SUB_ASSIGN => "-=" | MUL_ASSIGN => "*="
  | QUO_ASSIGN => "/=" | REM_ASSIGN => "%="
  | AND_ASSIGN => "&=" | OR_ASSIGN => "|=" | XOR_ASSIGN => "^="
  | SHL_ASSIGN => "<<=" | SHR_ASSIGN => ">>=" | AND_NOT_ASSIGN => "&^="
  | LAND => "&&" | LOR => "||" | ARROW => "<-" | INC => "++" | DEC => "--"
  | EQL => "==" | LSS => "<" | GTR => ">" | ASSIGN => "=" | NOT => "!"
  | NEQ => "!=" | LEQ => "<=" | GEQ => ">=" | DEFINE => ":="
  | ELLIPSIS => "..."
  | LPAREN => "(" | LBRACK => "[" | LBRACE => "{" | COMMA => ","
  | PERIOD => "."
  | RPAREN => ")" | RBRACK => "]" | RBRACE => "}" | SEMICOLON => ";"
  | COLON => ":"
  | BREAK => "break" | CASE => "case" | CHAN => "chan" | CONST => "const"
  | CONTINUE => "continue"
  | DEFAULT => "default" | DEFER => "defer" | ELSE => "else"
  | FALLTHROUGH => "fallthrough" | FOR => "for"
  | FUNC => "func" | GO => "go" | GOTO => "goto" | IF => "if"
  | IMPORT => "import"
  | INTERFACE => "interface" | MAP => "map" | PACKAGE => "package"
  | RANGE => "range" | RETURN => "return"
  | SELECT => "select" | STRUCT => "struct" | SWITCH => "switch"
  | TYPE => "type" | VAR => "var"
  | TILDE => "~"
  end.

(** [Token.IsLiteral]: [literal_beg < tok && tok < literal_end]. *)
Definition IsLiteral (t : Token) : bool :=
  (3 <? Token_code t) && (Token_code t <? 10).

(** [token.NoPos], and the base of the file that [new_token_iterator] adds to
    a fresh file set ([token.NewFileSet] starts at base 1). *)
Definition NoPos : Z := 0.
Definition fset_Base : Z := 1.

(** [File.Pos] of a file with base [base] and size [size]: the offset is
    brought into [0, size] first (go/token's [fixOffset]; releases before
    Go 1.20 panic on an offset beyond [size] instead). *)
Definition fixOffset (size offset : Z) : Z :=
  if offset <? 0 then 0 else if size <? offset then size else offset.

Definition file_Pos (base size offset : Z) : Z := base + fixOffset size offset.

(** ** Outcomes of a run

    A Go function either returns or panics; the loops of the model carry a
    fuel counter, so running out of it is a third outcome, shown below never
    to happen. *)

Inductive fault : Set :=
  | IndexOutOfRange   (* tokens[i] with i outside [0, len) *)
  | SliceOutOfRange   (* s[lo:hi] without 0 <= lo <= hi <= len(s) *)
  | OutOfFuel.

Inductive result (A : Type) : Type :=
  | Ret (a : A)
  | Fault (f : fault).
Arguments Ret {A} a.
Arguments Fault {A} f.

(** ** The token iterator *)

Record token_item : Set := mk_item { tok : Token; lit : string }.

Record token_iterator : Set :=
  mk_iter { tokens : list token_item; token_index : Z }.

Definition literal (i : token_item) : string :=
  if IsLiteral (tok i) then lit i else Token_String (tok i).

(** Methods on [*token_iterator]: a state monad over the iterator, with
    faults. *)
Definition M (A : Type) : Type := token_iterator -> result (A * token_iterator).

Definition ret {A} (a : A) : M A := fun ti => Ret (a, ti).

Definition bind {A B} (m : M A) (f : A -> M B) : M B :=
  fun ti => match m ti with
            | Ret (a, ti') => f a ti'
            | Fault e => Fault e
            end.

Definition raise {A} (e : fault) : M A := fun _ => Fault e.

Notation "x <- m ;; k" := (bind m (fun x => k))
  (at level 100, m at next level, right associativity).

(** [s[i]] on a slice. *)
Definition index_Z {A} (l : list A) (i : Z) : option A :=
  if i <? 0 then None else nth_error l (Z.to_nat i).

(** [s[lo:hi]] on a slice.  Go lets [hi] go up to the capacity; the model
    faults already beyond the length. *)
Definition slice_Z {A} (l : list A) (lo hi : Z) : option (list A) :=
  if (0 <=? lo) && (lo <=? hi) && (hi <=? Z.of_nat (List.length l))
  then Some (firstn (Z.to_nat (hi - lo)) (skipn (Z.to_nat lo) l))
  else None.

(** [s[lo:hi]] on a string. *)
Definition substr_Z (s : string) (lo hi : Z) : option string :=
  if (0 <=? lo) && (lo <=? hi) && (hi <=? Z.of_nat (String.length s))
  then Some (substring (Z.to_nat lo) (Z.to_nat (hi - lo)) s)
  else None.

Definition len_string (s : string) : Z := Z.of_nat (String.length s).

Definition token : M token_item :=
  fun ti => match index_Z (tokens ti) (token_index ti) with
            | Some t => Ret (t, ti)
            | None => Fault IndexOutOfRange
            end.

Definition go_back : M bool :=
  fun ti => if token_index ti <=? 0 then Ret (false, ti)
            else Ret (true, mk_iter (tokens ti) (token_index ti - 1)).

(** A missing key of a Go map reads as the zero value, [Token(0)]. *)
Definition bracket_pairs_map (right : Token) : Token :=
  match right with
  | RPAREN => LPAREN
  | RBRACK => LBRACK
  | RBRACE => LBRACE
  | _ => ILLEGAL
  end.

(** The loop [for balance != 0 { ... }] of [skip_to_left]. *)
Fixpoint skip_to_left_loop (fuel : nat) (left right : Token) (balance : Z)
  : M bool :=
  if balance =? 0 then ret true
  else match fuel with
       | O => raise OutOfFuel
       | S fuel' =>
           ok <- go_back ;;
           if negb ok then ret false
           else
             t <- token ;;
             let balance' :=
               if Token_eqb (tok t) right then balance + 1
               else if Token_eqb (tok t) left then balance - 1
               else balance in
             skip_to_left_loop fuel' left right balance'
       end.

(** Fuel for a loop that steps back at least once per round: one round per
    token and one more. *)
Definition with_fuel {A} (f : nat -> M A) : M A :=
  fun ti => f (S (List.length (tokens ti))) ti.

Definition skip_to_left (left right : Token) : M bool :=
  t <- token ;;
  if Token_eqb (tok t) left then ret true
  else with_fuel (fun fuel => skip_to_left_loop fuel left right 1).

Definition skip_to_balanced_pair : M bool :=
  t <- token ;;
  let right := tok t in
  let left := bracket_pairs_map right in
  skip_to_left left right.

Definition skip_to_left_curly : M bool := skip_to_left LBRACE RBRACE.

Definition extract_struct_type : M string :=
  ok <- skip_to_left_curly ;;
  if negb ok then ret "" else
  ok <- go_back ;;
  if negb ok then ret "" else
  t <- token ;;
  if negb (Token_eqb (tok t) IDENT) then ret "" else
  let b := literal t in
  ok <- go_back ;;
  if negb ok then ret b else
  t <- token ;;
  if negb (Token_eqb (tok t) PERIOD) then ret b else
  ok <- go_back ;;
  if negb ok then ret b else
  t <- token ;;
  if negb (Token_eqb (tok t) IDENT) then ret b else
  ret (literal t ++ "." ++ b)%string.

Fixpoint token_items_to_string (ts : list token_item) : string :=
  match ts with
  | [] => ""
  | t :: ts' => (literal t ++ token_items_to_string ts')%string
  end.

(** What one round of the loop of [extract_go_expr] decides for the token it
    stepped back to, [prev] being the token to its right: leave the loop,
    go on, or go on after skipping to the balanced pair. *)
Inductive round : Set := Break | Next | SkipPair.

Definition expr_round (cur prev : Token) : round :=
  match cur with
  | PERIOD =>
      if negb (Token_eqb prev IDENT) then Break else Next
  | IDENT =>
      match prev with
      | PERIOD | LBRACK | LBRACE | LPAREN => Next
      | _ => Break
      end
  | RBRACE =>
      if negb (Token_eqb prev PERIOD) then Break else SkipPair
  | RPAREN | RBRACK =>
      match prev with
      | PERIOD | LBRACK | LPAREN => SkipPair
      | _ => Break
      end
  | _ => Break
  end.

(** [this.tokens[lo:hi]] put back into text. *)
Definition tokens_text (lo hi : Z) : M string :=
  fun ti => match slice_Z (tokens ti) lo hi with
            | Some ts => Ret (token_items_to_string ts, ti)
            | None => Fault SliceOutOfRange
            end.

Definition get_index : M Z := fun ti => Ret (token_index ti, ti).

Fixpoint extract_go_expr_loop (fuel : nat) (orig : Z) (prev : Token)
  : M string :=
  match fuel with
  | O => raise OutOfFuel
  | S fuel' =>
      ok <- go_back ;;
      if negb ok then tokens_text 0 orig
      else
        t <- token ;;
        match expr_round (tok t) prev with
        | Break =>
            i <- get_index ;;
            tokens_text (i + 1) orig
        | Next =>
            extract_go_expr_loop fuel' orig (tok t)
        | SkipPair =>
            _ <- skip_to_balanced_pair ;;
            t' <- token ;;
            extract_go_expr_loop fuel' orig (tok t')
        end
  end.

Definition extract_go_expr : M string :=
  orig <- get_index ;;
  t <- token ;;
  with_fuel (fun fuel => extract_go_expr_loop fuel orig (tok t)).

(** ** go/scanner

    [new_token_iterator] reads the source through [scanner.Scanner] alone.
    What [s.Scan()] returns is a triple; a source is seen by the iterator as
    the list of the triples that successive calls return before [token.EOF]. *)

Record scanned : Set := mk_scanned { s_pos : Z; s_tok : Token; s_lit : string }.

(** A model of [Scanner.Scan] (mode 0, no error handler) on a fragment of Go:
    ASCII identifiers and keywords, runs of decimal digits, interpreted string
    literals, operators and delimiters, white space and the automatic
    semicolons.  On anything else (comments, rune and raw string literals,
    other number forms, bytes that start no token of the fragment) the model
    stops with [None] rather than guess. *)
Module GoScanner.

(** The double quote, and the newline. *)
Definition dquote : ascii := "034"%char.
Definition newline : ascii := "010"%char.

Record scanner : Set :=
  mk_scanner { rest : string; offset : Z; insertSemi : bool }.

Definition ascii_in (lo hi c : ascii) : bool :=
  (nat_of_ascii lo <=? nat_of_ascii c)%nat &&
  (nat_of_ascii c <=? nat_of_ascii hi)%nat.

Definition isLetter (c : ascii) : bool :=
  ascii_in "a" "z" c || ascii_in "A" "Z" c || Ascii.eqb c "_".

Definition isDecimal (c : ascii) : bool := ascii_in "0" "9" c.

(** The longest prefix of characters satisfying [p], and what follows. *)
Fixpoint span (p : ascii -> bool) (s : string) : string * string :=
  match s with
  | EmptyString => ("", "")
  | String c s' =>
      if p c then let (a, b) := span p s' in (String c a, b)
      else ("", s)
  end.

(** [skipWhitespace]. *)
Fixpoint skipWhitespace (semi : bool) (s : string) (off : Z) : string * Z :=
  match s with
  | String c s' =>
      if Ascii.eqb c " " || Ascii.eqb c "009"
         || (Ascii.eqb c newline && negb semi) || Ascii.eqb c "013"
      then skipWhitespace semi s' (off + 1)
      else (s, off)
  | EmptyString => (s, off)
  end.

(** [token.Lookup]. *)
Definition keywords : list Token :=
  [ BREAK; CASE; CHAN; CONST; CONTINUE; DEFAULT; DEFER; ELSE; FALLTHROUGH;
    FOR; FUNC; GO; GOTO; IF; IMPORT; INTERFACE; MAP; PACKAGE; RANGE; RETURN;
    SELECT; STRUCT; SWITCH; TYPE; VAR ].

Definition Lookup (ident : string) : Token :=
  match find (fun k => String.eqb (Token_String k) ident) keywords with
  | Some k => k
  | None => IDENT
  end.

(** The characters [scanEscape] accepts and consumes at once.  After any
    other character it either stops at once or consumes digits; those are
    left to the loop of [scanString], which consumes them just the same. *)
Definition simple_escape (c : ascii) : bool :=
  existsb (Ascii.eqb c)
    ["a"; "b"; "f"; "n"; "r"; "t"; "v"; "\"; dquote]%char.

(** [scanString], the opening quote consumed: the text up to and with the
    closing quote, or up to a newline or the end of the source, and the rest
    of the source. *)
Fixpoint scanString (s : string) : string * string :=
  match s with
  | EmptyString => ("", "")
  | String c s' =>
      if Ascii.eqb c newline then ("", s)
      else if Ascii.eqb c dquote then (String c "", s')
      else if Ascii.eqb c "\" then
        match s' with
        | String d s'' =>
            if simple_escape d
            then let (a, b) := scanString s'' in (String c (String d a), b)
            else let (a, b) := scanString s' in (String c a, b)
        | EmptyString => (String c "", "")
        end
      else let (a, b) := scanString s' in (String c a, b)
  end.

(** Operators and delimiters, longest first, with the value that [Scan]
    gives [insertSemi] after each ([switch2], [switch3] and [switch4] pick
    the longest operator that the source continues with). *)
Definition operators : list (string * Token * bool) :=
  [ ("<<=", SHL_ASSIGN, false); (">>=", SHR_ASSIGN, false);
    ("&^=", AND_NOT_ASSIGN, false); ("...", ELLIPSIS, false);
    ("<<", SHL, false); (">>", SHR, false); ("&^", AND_NOT, false);
    ("+=", ADD_ASSIGN, false); ("-=", SUB_ASSIGN, false);
    ("*=", MUL_ASSIGN, false); ("/=", QUO_ASSIGN, false);
    ("%=", REM_ASSIGN, false); ("&=", AND_ASSIGN, false);
    ("|=", OR_ASSIGN, false); ("^=", XOR_ASSIGN, false);
    ("&&", LAND, false); ("||", LOR, false); ("<-", ARROW, false);
    ("++", INC, true); ("--", DEC, true);
    ("==", EQL, false); ("!=", NEQ, false); ("<=", LEQ, false);
    (">=", GEQ, false); (":=", DEFINE, false);
    ("+", ADD, false); ("-", SUB, false); ("*", MUL, false);
    ("/", QUO, false); ("%", REM, false); ("&", AND, false);
    ("|", OR, false); ("^", XOR, false); ("<", LSS, false);
    (">", GTR, false); ("=", ASSIGN, false); ("!", NOT, false);
    ("(", LPAREN, false); ("[", LBRACK, false); ("{", LBRACE, false);
    (",", COMMA, false); (".", PERIOD, false);
    (")", RPAREN, true); ("]", RBRACK, true); ("}", RBRACE, true);
    (";", SEMICOLON, false); (":", COLON, false); ("~", TILDE, false) ].

Fixpoint strip_prefix (p s : string) : option string :=
  match p, s with
  | EmptyString, _ => Some s
  | String a p', String b s' =>
      if Ascii.eqb a b then strip_prefix p' s' else None
  | String _ _, EmptyString => None
  end.

Fixpoint scan_operator (ops : list (string * Token * bool)) (s : string)
  : option (string * Token * bool * string) :=
  match ops with
  | [] => None
  | (text, t, semi) :: ops' =>
      match strip_prefix text s with
      | Some s' => Some (text, t, semi, s')
      | None => scan_operator ops' s
      end
  end.

Definition starts_with (p : ascii -> bool) (s : string) : bool :=
  match s with
  | String c _ => p c
  | EmptyString => false
  end.

(** One call of [Scan]: the triple returned and the scanner afterwards. *)
Definition Scan (s : scanner) : option (scanned * scanner) :=
  let (src, off) := skipWhitespace (insertSemi s) (rest s) (offset s) in
  let pos := fset_Base + off in
  match src with
  | EmptyString =>
      if insertSemi s
      then Some (mk_scanned pos SEMICOLON (String newline ""),
                 mk_scanner src off false)
      else Some (mk_scanned pos EOF "", mk_scanner src off false)
  | String ch src' =>
      if isLetter ch then
        let (l, r) := span (fun c => isLetter c || isDecimal c) src in
        let t := if (1 <? len_string l) then Lookup l else IDENT in
        let semi :=
          existsb (Token_eqb t) [IDENT; BREAK; CONTINUE; FALLTHROUGH; RETURN]
        in
        Some (mk_scanned pos t l, mk_scanner r (off + len_string l) semi)
      else if isDecimal ch then
        let (l, r) := span isDecimal src in
        if starts_with (fun c => isLetter c || Ascii.eqb c ".") r then None
        else Some (mk_scanned pos INT l,
                   mk_scanner r (off + len_string l) true)
      else if Ascii.eqb ch "." && starts_with isDecimal src' then None
      else if Ascii.eqb ch newline then
        Some (mk_scanned pos SEMICOLON (String newline ""),
              mk_scanner src' (off + 1) false)
      else if Ascii.eqb ch dquote then
        let (l, r) := scanString src' in
        Some (mk_scanned pos STRING (String ch l),
              mk_scanner r (off + 1 + len_string l) true)
      else if Ascii.eqb ch "/"
              && starts_with (fun c => Ascii.eqb c "/" || Ascii.eqb c "*")
                   src'
      then None
      else
        match scan_operator operators src with
        | Some (text, t, semi, r) =>
            Some (mk_scanned pos t
                    (if Token_eqb t SEMICOLON then ";" else ""),
                  mk_scanner r (off + len_string text) semi)
        | None => None
        end
  end.

(** The triples of successive calls of [Scan], up to [token.EOF]. *)
Fixpoint scan_upto_EOF (fuel : nat) (s : scanner) : option (list scanned) :=
  match fuel with
  | O => None
  | S fuel' =>
      match Scan s with
      | None => None
      | Some (r, s') =>
          if Token_eqb (s_tok r) EOF then Some []
          else option_map (cons r) (scan_upto_EOF fuel' s')
      end
  end.

(** [s.Init(file, src, nil, 0)] and the scans; every call consumes a
    character or is one of the two calls at the end of the source. *)
Definition scan_all (src : string) : option (list scanned) :=
  scan_upto_EOF (String.length src + 2) (mk_scanner src 0 false).

End GoScanner.

(** ** The iterator's constructor *)

(** The loop of [new_token_iterator] over the triples [s.Scan()] returns; past
    the end of the list the scanner reports [token.EOF]. *)
Fixpoint scan_loop (scans : list scanned) (cursorPos : Z)
    (tokens : list token_item) (lastPos : Z) : list token_item * Z :=
  match scans with
  | [] => (tokens, lastPos)
  | r :: scans' =>
      if Token_eqb (s_tok r) EOF || (cursorPos <=? s_pos r)
      then (tokens, lastPos)
      else scan_loop scans' cursorPos
             (tokens ++ [mk_item (s_tok r) (s_lit r)]) (s_pos r)
  end.

(** [new_token_iterator(src, cursor)], where [src] enters by its length
    [size] and by [scans], what the scanner returns on it. *)
Definition new_token_iterator (scans : list scanned) (size cursor : Z)
  : token_iterator * Z :=
  let cursorPos := file_Pos fset_Base size cursor in
  let (tokens, lastPos) := scan_loop scans cursorPos [] NoPos in
  (mk_iter tokens (Z.of_nat (List.length tokens) - 1), cursorPos - lastPos).

(** ** The classifier *)

Inductive cursorContext : Set :=
  | unknownContext
  | importContext
  | selectContext
  | compositeLiteralContext.

Definition answer : Set := cursorContext * string * string.

Definition no_context : answer := (unknownContext, "", "").

(** The loop of the string-literal case: is the literal an import path? *)
Fixpoint import_loop (fuel : nat) (path : string) (off : Z) : M answer :=
  match fuel with
  | O => raise OutOfFuel
  | S fuel' =>
      ok <- go_back ;;
      if negb ok then ret no_context else
      itok <- token ;;
      ok <- (if Token_eqb (tok itok) IDENT || Token_eqb (tok itok) PERIOD
             then go_back else ret true) ;;
      if negb ok then ret no_context else
      t <- token ;;
      if Token_eqb (tok t) SEMICOLON then
        ok <- go_back ;;
        if negb ok then ret no_context else
        t <- token ;;
        if negb (Token_eqb (tok t) STRING) then ret no_context
        else import_loop fuel' path off
      else
        ok <- (if Token_eqb (tok t) LPAREN then go_back else ret true) ;;
        if negb ok then ret no_context else
        t <- token ;;
        if negb (Token_eqb (tok t) IMPORT) then ret no_context else
        match substr_Z path 1 off with
        | Some p => ret (importContext, "", p)
        | None => raise SliceOutOfRange
        end
  end.

Definition is_partial_token (t : Token) : bool :=
  match t with
  | IDENT | TYPE | CONST | VAR | FUNC | PACKAGE => true
  | _ => false
  end.

(** The last switch of the helper. *)
Definition deduce_tail (partial : string) : M answer :=
  t <- token ;;
  match tok t with
  | PERIOD =>
      e <- extract_go_expr ;;
      ret (selectContext, e, partial)
  | COMMA | LBRACE =>
      e <- extract_struct_type ;;
      ret (compositeLiteralContext, e, partial)
  | _ => ret (unknownContext, "", partial)
  end.

(** The step back after the partial identifier, and the last switch. *)
Definition deduce_back (partial : string) : M answer :=
  ok <- go_back ;;
  if negb ok then ret (unknownContext, "", partial)
  else deduce_tail partial.

(** The helper from the iterator on. *)
Definition deduce_from (off : Z) : M answer :=
  t <- token ;;
  if Token_eqb (tok t) STRING then
    let path := literal t in
    if len_string path <=? off then ret no_context
    else with_fuel (fun fuel => import_loop fuel path off)
  else if is_partial_token (tok t) then
    let partial := literal t in
    if Token_eqb (tok t) IDENT then
      if len_string (literal t) <? off then ret no_context
      else match substr_Z partial 0 off with
           | Some partial' => deduce_back partial'
           | None => raise SliceOutOfRange
           end
    else deduce_back partial
  else deduce_tail "".

Definition deduce_cursor_context_helper (scans : list scanned)
    (size cursor : Z) : result answer :=
  let (iter, off) := new_token_iterator scans size cursor in
  if Z.of_nat (List.length (tokens iter)) =? 0 then Ret no_context
  else match deduce_from off iter with
       | Ret (a, _) => Ret a
       | Fault e => Fault e
       end.

(** The helper on a source text, through the model of the scanner. *)
Definition deduce_on_source (file : string) (cursor : Z)
  : option (result answer) :=
  option_map
    (fun scans => deduce_cursor_context_helper scans (len_string file) cursor)
    (GoScanner.scan_all file).


(** ** Bracket nesting, for the statements about the balancer

    The usual reading of a token sequence from the left with a stack of the
    brackets still open: an opener is pushed with its index, a closer pops the
    top of the stack, which has to be an opener of its own kind. *)

Inductive bracket : Set := Paren | Brack | Brace.

Definition bracket_eqb (a b : bracket) : bool :=
  match a, b with
  | Paren, Paren | Brack, Brack | Brace, Brace => true
  | _, _ => false
  end.

Definition opener (k : bracket) : Token :=
  match k with Paren => LPAREN | Brack => LBRACK | Brace => LBRACE end.

Definition closer (k : bracket) : Token :=
  match k with Paren => RPAREN | Brack => RBRACK | Brace => RBRACE end.

Inductive bracket_role : Set :=
  | Opens (k : bracket)
  | Closes (k : bracket)
  | NoBracket.

Definition role (t : Token) : bracket_role :=
  match t with
  | LPAREN => Opens Paren | LBRACK => Opens Brack | LBRACE => Opens Brace
  | RPAREN => Closes Paren | RBRACK => Closes Brack | RBRACE => Closes Brace
  | _ => NoBracket
  end.

Definition open_stack : Set := list (bracket * Z).

Definition nest_step (i : Z) (st : open_stack) (t : token_item)
  : option open_stack :=
  match role (tok t) with
  | Opens k => Some ((k, i) :: st)
  | Closes k =>
      match st with
      | (k', _) :: st' => if bracket_eqb k' k then Some st' else None
      | [] => None
      end
  | NoBracket => Some st
  end.

Fixpoint nest_run (ts : list token_item) (i : Z) (st : open_stack)
  : option open_stack :=
  match ts with
  | [] => Some st
  | t :: ts' =>
      match nest_step i st t with
      | Some st' => nest_run ts' (i + 1) st'
      | None => None
      end
  end.

(** The brackets still open before the token of index [i]. *)
Definition open_before (ts : list token_item) (i : Z) : option open_stack :=
  nest_run (firstn (Z.to_nat i) ts) 0 [].

(** Every closer closes the bracket opened last, and nothing stays open. *)
Definition properly_nested (ts : list token_item) : bool :=
  match nest_run ts 0 [] with
  | Some [] => true
  | _ => false
  end.

(** The index of the opener that the closer of index [i] closes. *)
Definition matching_opener (ts : list token_item) (i : Z) : option Z :=
  match index_Z ts i, open_before ts i with
  | Some t, Some ((k, j) :: _) =>
      match role (tok t) with
      | Closes k' => if bracket_eqb k k' then Some j else None
      | _ => None
      end
  | _, _ => None
  end.

(** The index of the [b]-th bracket of kind [k] from the top of the stack. *)
Fixpoint nth_open (st : open_stack) (k : bracket) (b : Z) : option Z :=
  match st with
  | [] => None
  | (k', j) :: st' =>
      if bracket_eqb k' k
      then if b =? 1 then Some j else nth_open st' k (b - 1)
      else nth_open st' k b
  end.

(** ** The scans the constructor keeps *)

Fixpoint collected (scans : list scanned) (cursorPos : Z) : list scanned :=
  match scans with
  | [] => []
  | r :: scans' =>
      if Token_eqb (s_tok r) EOF || (cursorPos <=? s_pos r) then []
      else r :: collected scans' cursorPos
  end.

Definition item_of (r : scanned) : token_item := mk_item (s_tok r) (s_lit r).

(** [File.Offset] of the file of [new_token_iterator]. *)
Definition file_Offset (p : Z) : Z := p - fset_Base.

(** ** The sources of the examples *)

Definition quoted_open (s : string) : string := String GoScanner.dquote s.

Definition src_import_open : string := "import " ++ quoted_open "foo/b".
Definition src_import_closed : string :=
  src_import_open ++ String GoScanner.dquote "".
Definition src_select : string := "foo.Bar.Ba".
Definition src_composite : string := "Point{X: 1, Y".
Definition src_qualified : string := "pkg.Point{".
Definition src_var : string := "var ".
Definition src_ident_space : string := "foo ".

(** ** Notions for the statements *)

Definition in_range (ti : token_iterator) : Prop :=
  0 <= token_index ti < Z.of_nat (List.length (tokens ti)).

(** From [ti] to [ti']: the same tokens, the index in range and not further
    to the right. *)
Definition steady (ti ti' : token_iterator) : Prop :=
  tokens ti' = tokens ti /\ 0 <= token_index ti' <= token_index ti.

(** [m] returns from [ti], with a value satisfying [P] and a steady iterator. *)
Definition yields {A} (P : A -> Prop) (m : M A) (ti : token_iterator) : Prop :=
  exists a ti', m ti = Ret (a, ti') /\ steady ti ti' /\ P a.

Definition anything {A} (_ : A) : Prop := True.

(** The partial identifier is handed through to every answer of the last
    switch. *)
Definition has_partial (partial : string) (a : answer) : Prop :=
  snd a = partial.

(** The scans of a source of the modelled fragment. *)
Definition scans_of (src : string) : list scanned :=
  match GoScanner.scan_all src with
  | Some scans => scans
  | None => []
  end.

(** The tokens [left] still open before the index [i], met last first, when
    the sequence is read from the left for [left] and [right] alone: a [right]
    closes the [left] met last, and nothing when none is open. *)
Definition lefts_step (left right : Token) (i : Z) (st : list Z)
    (t : token_item) : list Z :=
  if Token_eqb (tok t) right then tl st
  else if Token_eqb (tok t) left then i :: st
  else st.

Fixpoint lefts_run (left right : Token) (ts : list token_item) (i : Z)
    (st : list Z) : list Z :=
  match ts with
  | [] => st
  | t :: ts' => lefts_run left right ts' (i + 1) (lefts_step left right i st t)
  end.

Definition lefts_before (left right : Token) (ts : list token_item) (i : Z)
  : list Z :=
  lefts_run left right (firstn (Z.to_nat i) ts) 0 [].

(** No token of kind [left] at an index below [i]. *)
Definition none_before (left : Token) (ts : list token_item) (i : Z) : bool :=
  forallb (fun u => negb (Token_eqb (tok u) left)) (firstn (Z.to_nat i) ts).

(** The last of the scans kept, if any. *)
Fixpoint last_scan (l : list scanned) : option scanned :=
  match l with
  | [] => None
  | r :: l' => match l' with [] => Some r | _ => last_scan l' end
  end.

Definition is_declaration_keyword (t : Token) : bool :=
  match t with
  | TYPE | CONST | VAR | FUNC | PACKAGE => true
  | _ => false
  end.

(** The type name read off in front of the open brace of index [j]: the
    identifier [b] at [j - 1], qualified by the identifier at [j - 3] when
    a period stands at [j - 2]. *)
Definition qualified_name (ts : list token_item) (j : Z) : string :=
  match index_Z ts (j - 1) with
  | None => ""
  | Some b =>
      match index_Z ts (j - 2), index_Z ts (j - 3) with
      | Some dot, Some p =>
          if Token_eqb (tok dot) PERIOD && Token_eqb (tok p) IDENT
          then (literal p ++ "." ++ literal b)%string
          else literal b
      | _, _ => literal b
      end
  end.

(** A method keeps the iterator in range. *)
Definition keeps_range {A} (m : M A) : Prop :=
  forall ti, in_range ti ->
  exists a ti', m ti = Ret (a, ti') /\ tokens ti' = tokens ti /\ in_range ti'.

(** [f(a[1], {})] as tokens. *)
Definition nested_tokens : list token_item :=
  [ mk_item IDENT "f"; mk_item LPAREN ""; mk_item IDENT "a";
    mk_item LBRACK ""; mk_item INT "1"; mk_item RBRACK "";
    mk_item COMMA ""; mk_item LBRACE ""; mk_item RBRACE "";
    mk_item RPAREN "" ].

(** [( a ) ] )] as tokens: the last two closers close nothing. *)
Definition unbalanced_tokens : list token_item :=
  [ mk_item LPAREN ""; mk_item IDENT "a"; mk_item RPAREN "";
    mk_item RBRACK ""; mk_item RPAREN "" ].

(** ** Notions for further statements *)

(** The context that the last switch of the helper gives for the token it
    looks at, if there is one. *)
Definition context_after (u : option token_item) : cursorContext :=
  match u with
  | Some i =>
      match tok i with
      | PERIOD => selectContext
      | COMMA | LBRACE => compositeLiteralContext
      | _ => unknownContext
      end
  | None => unknownContext
  end.

(** The tokens of [x1.x2. ... xn.]: every name followed by a period. *)
Fixpoint selectors (names : list string) : list token_item :=
  match names with
  | [] => []
  | x :: names' => mk_item IDENT x :: mk_item PERIOD "" :: selectors names'
  end.

(** The last token of a sequence is a period. *)
Definition ends_with_period (ts : list token_item) : bool :=
  match rev ts with
  | u :: _ => Token_eqb (tok u) PERIOD
  | [] => false
  end.

(** What may stand between the keyword [import] and the path of an import
    declaration's first line: the parenthesis of a group, and an alias or the
    period of a dot import. *)
Definition import_middle (mid : list token_item) : bool :=
  match mid with
  | [] => true
  | [a] =>
      Token_eqb (tok a) LPAREN || Token_eqb (tok a) IDENT
      || Token_eqb (tok a) PERIOD
  | [a; b] =>
      Token_eqb (tok a) LPAREN
      && (Token_eqb (tok b) IDENT || Token_eqb (tok b) PERIOD)
  | _ => false
  end.

(** A scan that the loop of the constructor stops at. *)
Definition stops_loop (cursorPos : Z) (r : scanned) : Prop :=
  s_tok r = EOF \/ cursorPos <= s_pos r.

(** The answer is the text of the tokens from some index, not right of
    [bound], up to [orig]. *)
Definition text_of_run (ts : list token_item) (bound orig : Z) (s : string)
  : Prop :=
  exists lo, 0 <= lo <= bound /\
    s = token_items_to_string
          (firstn (Z.to_nat (orig - lo)) (skipn (Z.to_nat lo) ts)).

(** The tokens of the lines [paths] of an import group: every path, a
    string, followed by the semicolon of its line end. *)
Fixpoint group_lines (paths : list string) : list token_item :=
  match paths with
  | [] => []
  | s :: paths' =>
      mk_item STRING s :: mk_item SEMICOLON (String GoScanner.newline "")
        :: group_lines paths'
  end.

(** A string literal: [s] between double quotes. *)
Definition quoted (s : string) : string :=
  quoted_open (s ++ String GoScanner.dquote "")%string.

(** An import group of two lines, the cursor to be put in the second. *)
Definition src_group : string :=
  ("import (" ++ String GoScanner.newline (quoted "a")
     ++ String GoScanner.newline (quoted "bc"))%string.

(** The indices of the open brackets of kind [k] on a stack. *)
Fixpoint opens_of (k : bracket) (st : open_stack) : list Z :=
  match st with
  | [] => []
  | (k', j) :: st' =>
      if bracket_eqb k' k then j :: opens_of k st' else opens_of k st'
  end.

(** * Properties *)

(** Comparisons on [Z] decided by a boolean test, as propositions. *)
Ltac zbool :=
  repeat match goal with
         | H : (_ =? _) = true |- _ => apply Z.eqb_eq in H
         | H : (_ =? _) = false |- _ => apply Z.eqb_neq in H
         | H : (_ <=? _) = true |- _ => apply Z.leb_le in H
         | H : (_ <=? _) = false |- _ => apply Z.leb_gt in H
         | H : (_ <? _) = true |- _ => apply Z.ltb_lt in H
         | H : (_ <? _) = false |- _ => apply Z.ltb_ge in H
         end.

Ltac zlia := zbool; lia.

(** ** Tokens *)

Lemma Token_of_code_code (t : Token) : Token_of_code (Token_code t) = t.
Proof. destruct t; reflexivity. Qed.

Lemma Token_eqb_eq (a b : Token) : Token_eqb a b = true <-> a = b.
Proof.
  unfold Token_eqb. rewrite Z.eqb_eq. split.
  - intro H. rewrite <- (Token_of_code_code a), <- (Token_of_code_code b).
    now rewrite H.
  - now intros ->.
Qed.

Lemma Token_eqb_refl (a : Token) : Token_eqb a a = true.
Proof. now apply Token_eqb_eq. Qed.

Lemma Token_eqb_neq (a b : Token) : Token_eqb a b = false <-> a <> b.
Proof.
  rewrite <- Token_eqb_eq. destruct (Token_eqb a b); split; congruence.
Qed.

(** ** The iterator stays in range *)

Lemma steady_refl ti : 0 <= token_index ti -> steady ti ti.
Proof. unfold steady. intro H. split; [reflexivity | lia]. Qed.

Lemma steady_trans a b c : steady a b -> steady b c -> steady a c.
Proof. unfold steady. intros [H1 H2] [H3 H4]. split; [congruence | lia]. Qed.

Lemma steady_in_range a b : in_range a -> steady a b -> in_range b.
Proof. unfold in_range, steady. intros H [H1 H2]. rewrite H1. lia. Qed.

Lemma yields_weaken {A} (P Q : A -> Prop) m ti :
  (forall a, P a -> Q a) -> yields P m ti -> yields Q m ti.
Proof. intros H (a & ti' & E & S & Pa). exists a, ti'. auto. Qed.

Lemma yields_ret {A} (P : A -> Prop) (a : A) ti :
  in_range ti -> P a -> yields P (ret a) ti.
Proof.
  intros R Pa. exists a, ti.
  split; [reflexivity|]. split; [apply steady_refl, R | exact Pa].
Qed.

Lemma yields_bind {A B} (P : B -> Prop) (m : M A) (f : A -> M B) ti :
  yields anything m ti ->
  (forall a ti', m ti = Ret (a, ti') -> steady ti ti' -> yields P (f a) ti') ->
  yields P (bind m f) ti.
Proof.
  intros (a & ti' & E & S & _) H.
  destruct (H a ti' E S) as (b & ti'' & E' & S' & Pb).
  exists b, ti''. unfold bind. rewrite E.
  split; [exact E'|]. split; [exact (steady_trans _ _ _ S S') | exact Pb].
Qed.

Lemma index_Z_in_range {A} (l : list A) (i : Z) :
  0 <= i < Z.of_nat (List.length l) -> exists x, index_Z l i = Some x.
Proof.
  intro H. unfold index_Z.
  destruct (i <? 0) eqn:E; [lia|].
  destruct (nth_error l (Z.to_nat i)) eqn:N; [eauto|].
  apply nth_error_None in N. lia.
Qed.

Lemma index_Z_Some {A} (l : list A) (i : Z) x :
  index_Z l i = Some x -> 0 <= i < Z.of_nat (List.length l).
Proof.
  unfold index_Z. destruct (i <? 0) eqn:E; [discriminate|].
  intro H. assert (nth_error l (Z.to_nat i) <> None) as N by congruence.
  apply nth_error_Some in N. lia.
Qed.

Lemma token_eq ti t ti' : token ti = Ret (t, ti') ->
  ti' = ti /\ index_Z (tokens ti) (token_index ti) = Some t.
Proof.
  unfold token. destruct (index_Z _ _); [|discriminate].
  intro H. injection H as <- <-. auto.
Qed.

Lemma yields_token ti : in_range ti -> yields anything token ti.
Proof.
  intro R. destruct (index_Z_in_range _ _ R) as [t E].
  exists t, ti. unfold token. rewrite E.
  split; [reflexivity|]. split; [apply steady_refl, R | exact I].
Qed.

Lemma go_back_eq ti ok ti' : go_back ti = Ret (ok, ti') ->
  tokens ti' = tokens ti /\
  ((ok = false /\ token_index ti <= 0 /\ token_index ti' = token_index ti) \/
   (ok = true /\ 0 < token_index ti /\ token_index ti' = token_index ti - 1)).
Proof.
  unfold go_back. destruct (token_index ti <=? 0) eqn:E;
    intro H; injection H as <- <-; simpl; split; auto; [left | right]; lia.
Qed.

Lemma yields_go_back ti : in_range ti -> yields anything go_back ti.
Proof.
  intro R. unfold go_back, yields, steady, anything.
  destruct (token_index ti <=? 0) eqn:E;
    eexists; eexists; (split; [reflexivity|]); simpl;
    unfold in_range in R; (split; [split; [reflexivity | lia] | exact I]).
Qed.

Lemma yields_bind_get_index {A} (P : A -> Prop) (f : Z -> M A) ti :
  yields P (f (token_index ti)) ti -> yields P (bind get_index f) ti.
Proof. intro H. exact H. Qed.

(** Steps through a method of the iterator: one bind, test or return. *)
Ltac keep_range ti' S :=
  assert (in_range ti') by (eapply steady_in_range; [|exact S]; assumption).

Ltac ystep :=
  lazymatch goal with
  | |- yields _ (ret _) _ => apply yields_ret; [assumption | try exact I]
  | |- yields _ (bind go_back _) _ =>
      let ok := fresh "ok" in let ti' := fresh "ti" in
      let E := fresh "E" in let S := fresh "S" in
      apply yields_bind;
      [ apply yields_go_back; assumption
      | intros ok ti' E S; keep_range ti' S; destruct ok; cbn [negb] ]
  | |- yields _ (bind token _) _ =>
      let t := fresh "t" in let ti' := fresh "ti" in
      let E := fresh "E" in let S := fresh "S" in
      apply yields_bind;
      [ apply yields_token; assumption
      | intros t ti' E S; keep_range ti' S ]
  | |- yields _ (bind get_index _) _ => apply yields_bind_get_index
  | |- yields _ (if ?c then _ else _) _ => destruct c eqn:?
  | |- yields _ (match ?c with _ => _ end) _ => destruct c eqn:?
  end.

(** Brings what is known of the indices into the context, for [lia]. *)
Ltac indices :=
  repeat match goal with
         | E : go_back _ = Ret _ |- _ => apply go_back_eq in E
         | E : token _ = Ret _ |- _ => apply token_eq in E
         | S : steady _ _ |- _ => unfold steady in S
         | R : in_range _ |- _ => unfold in_range in R
         | H : _ /\ _ |- _ => destruct H
         | H : _ \/ _ |- _ => destruct H
         end;
  subst; try discriminate;
  repeat match goal with
         | H : tokens _ = tokens _ |- _ => rewrite H in *
         end.

Lemma yields_skip_to_left_loop fuel left right : forall balance ti,
  in_range ti -> token_index ti < Z.of_nat fuel ->
  yields anything (skip_to_left_loop fuel left right balance) ti.
Proof.
  induction fuel as [|fuel IH]; intros balance ti R F.
  - unfold in_range in R. lia.
  - cbn [skip_to_left_loop]. ystep; [ystep|].
    ystep; [|ystep]. ystep. apply IH; [assumption|]. indices; lia.
Qed.

Lemma yields_with_fuel {A} (P : A -> Prop) (f : nat -> M A) ti :
  (forall fuel, token_index ti < Z.of_nat fuel -> yields P (f fuel) ti) ->
  in_range ti -> yields P (with_fuel f) ti.
Proof.
  intros H R. unfold with_fuel. apply H. unfold in_range in R. lia.
Qed.

Lemma yields_skip_to_left left right ti :
  in_range ti -> yields anything (skip_to_left left right) ti.
Proof.
  intro R. unfold skip_to_left. ystep. ystep; [ystep|].
  apply yields_with_fuel; [|assumption].
  intros fuel F. now apply yields_skip_to_left_loop.
Qed.

Lemma yields_skip_to_balanced_pair ti :
  in_range ti -> yields anything skip_to_balanced_pair ti.
Proof.
  intro R. unfold skip_to_balanced_pair. ystep.
  now apply yields_skip_to_left.
Qed.

Lemma yields_extract_struct_type ti :
  in_range ti -> yields anything extract_struct_type ti.
Proof.
  intro R. unfold extract_struct_type, skip_to_left_curly.
  apply yields_bind; [now apply yields_skip_to_left|].
  intros ok ti' E S. keep_range ti' S.
  destruct ok; cbn [negb]; repeat ystep.
Qed.

Lemma slice_Z_in_range {A} (l : list A) lo hi :
  0 <= lo <= hi -> hi <= Z.of_nat (List.length l) ->
  slice_Z l lo hi =
  Some (firstn (Z.to_nat (hi - lo)) (skipn (Z.to_nat lo) l)).
Proof.
  intros H1 H2. unfold slice_Z.
  destruct (0 <=? lo) eqn:E1; [|lia].
  destruct (lo <=? hi) eqn:E2; [|lia].
  destruct (hi <=? Z.of_nat (List.length l)) eqn:E3; [reflexivity | lia].
Qed.

Lemma substr_Z_in_range (s : string) lo hi :
  0 <= lo <= hi -> hi <= len_string s ->
  substr_Z s lo hi = Some (substring (Z.to_nat lo) (Z.to_nat (hi - lo)) s).
Proof.
  intros H1 H2. unfold substr_Z. unfold len_string in H2.
  destruct (0 <=? lo) eqn:E1; [|lia].
  destruct (lo <=? hi) eqn:E2; [|lia].
  destruct (hi <=? Z.of_nat (String.length s)) eqn:E3; [reflexivity | lia].
Qed.

Lemma yields_tokens_text lo hi ti :
  in_range ti -> 0 <= lo <= hi -> hi <= Z.of_nat (List.length (tokens ti)) ->
  yields anything (tokens_text lo hi) ti.
Proof.
  intros R H1 H2. unfold yields, tokens_text.
  rewrite slice_Z_in_range by assumption.
  eexists; eexists. split; [reflexivity|].
  split; [apply steady_refl, R | exact I].
Qed.

Lemma yields_extract_go_expr_loop fuel orig : forall prev ti,
  in_range ti -> token_index ti < Z.of_nat fuel ->
  token_index ti <= orig <= Z.of_nat (List.length (tokens ti)) ->
  yields anything (extract_go_expr_loop fuel orig prev) ti.
Proof.
  induction fuel as [|fuel IH]; intros prev ti R F O.
  - unfold in_range in R. lia.
  - cbn [extract_go_expr_loop]. ystep.
    + ystep. ystep.
      * ystep.
        apply yields_tokens_text; [assumption | |]; indices; lia.
      * apply IH; [assumption | |]; indices; lia.
      * apply yields_bind; [now apply yields_skip_to_balanced_pair|].
        intros ok' ti2 E2 S2. keep_range ti2 S2. ystep.
        apply IH; [assumption | |]; indices; lia.
    + apply yields_tokens_text; [assumption | |]; indices; lia.
Qed.

Lemma yields_extract_go_expr ti :
  in_range ti -> yields anything extract_go_expr ti.
Proof.
  intro R. unfold extract_go_expr. ystep. ystep.
  apply yields_with_fuel; [|assumption].
  intros fuel F. apply yields_extract_go_expr_loop; [assumption | |];
    indices; lia.
Qed.

(** ** The classifier returns *)

Lemma yields_import_loop fuel path off : forall ti,
  in_range ti -> token_index ti < Z.of_nat fuel ->
  1 <= off <= len_string path ->
  yields anything (import_loop fuel path off) ti.
Proof.
  induction fuel as [|fuel IH]; intros ti R F O.
  - unfold in_range in R. lia.
  - cbn [import_loop]. ystep; [|ystep]. ystep.
    apply yields_bind.
    { ystep; [now apply yields_go_back | ystep]. }
    intros ok ti2 E2 S2. keep_range ti2 S2.
    destruct ok; cbn [negb]; [|ystep].
    ystep. ystep.
    + ystep; [|ystep]. ystep. ystep; [ystep|].
      apply IH; [assumption | | assumption]. indices; lia.
    + apply yields_bind.
      { ystep; [now apply yields_go_back | ystep]. }
      intros ok3 ti4 E4 S4. keep_range ti4 S4.
      destruct ok3; cbn [negb]; [|ystep].
      ystep. ystep; [ystep|].
      rewrite substr_Z_in_range by lia. ystep.
Qed.

Lemma yields_deduce_tail partial ti :
  in_range ti -> yields (has_partial partial) (deduce_tail partial) ti.
Proof.
  intro R. unfold deduce_tail. ystep.
  ystep; try (ystep; reflexivity).
  - apply yields_bind; [now apply yields_extract_struct_type|].
    intros e ti' E' S'. keep_range ti' S'. ystep. reflexivity.
  - apply yields_bind; [now apply yields_extract_struct_type|].
    intros e ti' E' S'. keep_range ti' S'. ystep. reflexivity.
  - apply yields_bind; [now apply yields_extract_go_expr|].
    intros e ti' E' S'. keep_range ti' S'. ystep. reflexivity.
Qed.

Lemma yields_deduce_back partial ti :
  in_range ti -> yields (has_partial partial) (deduce_back partial) ti.
Proof.
  intro R. unfold deduce_back. ystep.
  - now apply yields_deduce_tail.
  - ystep. reflexivity.
Qed.

Lemma yields_deduce_from off ti :
  in_range ti -> 1 <= off -> yields anything (deduce_from off) ti.
Proof.
  intros R O. unfold deduce_from. ystep. ystep.
  - ystep; [ystep|].
    apply yields_with_fuel; [|assumption].
    intros fuel F. apply yields_import_loop; [assumption | assumption | lia].
  - ystep.
    + ystep.
      * ystep; [ystep|].
        rewrite substr_Z_in_range by lia.
        eapply yields_weaken; [|now apply yields_deduce_back]. easy.
      * eapply yields_weaken; [|now apply yields_deduce_back]. easy.
    + eapply yields_weaken; [|now apply yields_deduce_tail]. easy.
Qed.

(** ** The constructor *)

Lemma last_cons {A} (l : list A) (a d : A) : last (a :: l) d = last l a.
Proof.
  revert a d. induction l as [|b l IH]; intros a d; [reflexivity|].
  change (last (a :: b :: l) d) with (last (b :: l) d).
  now rewrite (IH b d), (IH b a).
Qed.

Lemma scan_loop_collected scans cursorPos : forall toks lastPos,
  scan_loop scans cursorPos toks lastPos =
  (toks ++ map item_of (collected scans cursorPos),
   last (map s_pos (collected scans cursorPos)) lastPos).
Proof.
  induction scans as [|r scans IH]; intros toks lastPos; cbn [scan_loop collected].
  - now rewrite app_nil_r.
  - destruct (Token_eqb (s_tok r) EOF || (cursorPos <=? s_pos r)).
    + now rewrite app_nil_r.
    + rewrite IH. cbn [map]. rewrite last_cons, <- app_assoc. reflexivity.
Qed.

Lemma collected_before scans cursorPos :
  Forall (fun r => s_pos r < cursorPos /\ s_tok r <> EOF)
    (collected scans cursorPos).
Proof.
  induction scans as [|r scans IH]; cbn [collected]; [constructor|].
  destruct (Token_eqb (s_tok r) EOF || (cursorPos <=? s_pos r)) eqn:E;
    [constructor|].
  apply orb_false_iff in E. destruct E as [E1 E2].
  constructor; [|exact IH]. split; [lia|]. now apply Token_eqb_neq.
Qed.

Lemma last_Forall {A} (P : A -> Prop) (l : list A) (d : A) :
  Forall P l -> l <> [] -> P (last l d).
Proof.
  induction 1 as [|a l Pa F IH]; [congruence|]. intros _.
  rewrite last_cons. destruct l as [|b l]; [exact Pa|].
  rewrite last_cons. rewrite last_cons in IH. apply IH. discriminate.
Qed.

Lemma new_token_iterator_eq scans size cursor :
  let cursorPos := file_Pos fset_Base size cursor in
  let kept := collected scans cursorPos in
  new_token_iterator scans size cursor =
  (mk_iter (map item_of kept) (Z.of_nat (List.length kept) - 1),
   cursorPos - last (map s_pos kept) NoPos).
Proof.
  intros cursorPos kept. unfold new_token_iterator. cbv zeta.
  rewrite scan_loop_collected. subst kept cursorPos.
  cbn [app]. now rewrite length_map.
Qed.

Lemma new_token_iterator_in_range scans size cursor iter off :
  new_token_iterator scans size cursor = (iter, off) ->
  tokens iter <> [] ->
  in_range iter /\ 1 <= off /\
  token_index iter = Z.of_nat (List.length (tokens iter)) - 1.
Proof.
  rewrite new_token_iterator_eq. intro H.
  apply pair_equal_spec in H. destruct H as [<- <-].
  cbn [tokens token_index]. unfold in_range. cbn [tokens token_index].
  rewrite length_map. intro N.
  pose proof (collected_before scans (file_Pos fset_Base size cursor)) as B.
  remember (collected scans (file_Pos fset_Base size cursor)) as kept.
  assert (kept <> []) as K by (intro K; apply N; now rewrite K).
  split; [|split; [|reflexivity]].
  - destruct kept; [congruence|]. cbn [List.length]. lia.
  - assert (Forall (fun p => p < file_Pos fset_Base size cursor)
              (map s_pos kept)) as F.
    { apply Forall_map. eapply Forall_impl; [|exact B].
      intros r [H _]. exact H. }
    apply (last_Forall _ _ NoPos) in F.
    + cbv beta in F. lia.
    + destruct kept; [congruence | discriminate].
Qed.

Lemma deduce_cursor_context_helper_returns scans size cursor :
  exists a, deduce_cursor_context_helper scans size cursor = Ret a.
Proof.
  unfold deduce_cursor_context_helper.
  destruct (new_token_iterator scans size cursor) as [iter off] eqn:E.
  destruct (Z.of_nat (List.length (tokens iter)) =? 0) eqn:L; [eauto|].
  assert (tokens iter <> []) as N.
  { intro N. rewrite N in L. discriminate. }
  destruct (new_token_iterator_in_range _ _ _ _ _ E N) as (R & O & _).
  destruct (yields_deduce_from off iter R O) as (a & ti' & -> & _).
  eauto.
Qed.

(** ** The balancer and the nesting of brackets *)

Lemma role_Opens t k : role t = Opens k -> t = opener k.
Proof. destruct t; simpl; intro H; inversion H; reflexivity. Qed.

Lemma role_Closes t k : role t = Closes k -> t = closer k.
Proof. destruct t; simpl; intro H; inversion H; reflexivity. Qed.

Lemma role_NoBracket t k :
  role t = NoBracket ->
  Token_eqb t (opener k) = false /\ Token_eqb t (closer k) = false.
Proof. destruct t, k; simpl; intro H; try discriminate; split; reflexivity. Qed.

Lemma role_closer k : role (closer k) = Closes k.
Proof. now destruct k. Qed.

Lemma bracket_eqb_eq a b : bracket_eqb a b = true <-> a = b.
Proof. destruct a, b; simpl; split; congruence. Qed.

Lemma eqb_opener_opener a b : Token_eqb (opener a) (opener b) = bracket_eqb a b.
Proof. now destruct a, b. Qed.

Lemma eqb_closer_closer a b : Token_eqb (closer a) (closer b) = bracket_eqb a b.
Proof. now destruct a, b. Qed.

Lemma eqb_opener_closer a b : Token_eqb (opener a) (closer b) = false.
Proof. now destruct a, b. Qed.

Lemma eqb_closer_opener a b : Token_eqb (closer a) (opener b) = false.
Proof. now destruct a, b. Qed.

Lemma bracket_pairs_map_closer k : bracket_pairs_map (closer k) = opener k.
Proof. now destruct k. Qed.

Lemma nest_run_app l1 : forall l2 i st,
  nest_run (l1 ++ l2) i st =
  match nest_run l1 i st with
  | Some st' => nest_run l2 (i + Z.of_nat (List.length l1)) st'
  | None => None
  end.
Proof.
  induction l1 as [|t l1 IH]; intros l2 i st; cbn [app nest_run List.length].
  - now rewrite Z.add_0_r.
  - destruct (nest_step i st t); [|reflexivity].
    rewrite IH. replace (i + 1 + Z.of_nat (List.length l1))
      with (i + Z.of_nat (S (List.length l1))) by lia. reflexivity.
Qed.

Lemma firstn_S_nth {A} (l : list A) : forall n x,
  nth_error l n = Some x -> firstn (S n) l = firstn n l ++ [x].
Proof.
  induction l as [|a l IH]; intros [|n] x H; try discriminate.
  - injection H as ->. reflexivity.
  - cbn [nth_error] in H. change (firstn (S (S n)) (a :: l))
      with (a :: firstn (S n) l). now rewrite (IH _ _ H).
Qed.

Lemma skip_to_left_loop_0 fuel left right ti :
  skip_to_left_loop fuel left right 0 ti = Ret (true, ti).
Proof. now destruct fuel. Qed.

Lemma skip_to_left_loop_S fuel left right balance ts (n : nat) t :
  balance <> 0 -> nth_error ts n = Some t ->
  skip_to_left_loop (S fuel) left right balance (mk_iter ts (Z.of_nat (S n))) =
  skip_to_left_loop fuel left right
    (if Token_eqb (tok t) right then balance + 1
     else if Token_eqb (tok t) left then balance - 1 else balance)
    (mk_iter ts (Z.of_nat n)).
Proof.
  intros B H. cbn [skip_to_left_loop].
  destruct (balance =? 0) eqn:E; [zlia|].
  unfold bind at 1, go_back. cbn [token_index tokens].
  destruct (Z.of_nat (S n) <=? 0) eqn:E0; [zlia|].
  cbn [negb].
  replace (Z.of_nat (S n) - 1) with (Z.of_nat n) by lia.
  unfold bind at 1, token, index_Z. cbn [token_index tokens].
  destruct (Z.of_nat n <? 0) eqn:E1; [zlia|].
  now rewrite Nat2Z.id, H.
Qed.

Section Nesting.

Variable ts : list token_item.

Lemma open_before_0 : open_before ts 0 = Some [].
Proof. reflexivity. Qed.

Lemma open_before_S (n : nat) t :
  nth_error ts n = Some t ->
  open_before ts (Z.of_nat (S n)) =
  match open_before ts (Z.of_nat n) with
  | Some st => nest_step (Z.of_nat n) st t
  | None => None
  end.
Proof.
  intro H. unfold open_before. rewrite !Nat2Z.id.
  rewrite (firstn_S_nth _ _ _ H), nest_run_app.
  destruct (nest_run (firstn n ts) 0 []) as [st|]; [|reflexivity].
  cbn [nest_run]. rewrite length_firstn.
  assert (n < List.length ts)%nat as L
    by (apply nth_error_Some; congruence).
  replace (0 + Z.of_nat (Nat.min n (List.length ts))) with (Z.of_nat n) by lia.
  now destruct (nest_step (Z.of_nat n) st t).
Qed.

(** A properly nested sequence is read without a failure, up to any index. *)
Lemma properly_nested_open_before (n : nat) :
  properly_nested ts = true -> exists st, open_before ts (Z.of_nat n) = Some st.
Proof.
  unfold properly_nested, open_before. rewrite Nat2Z.id.
  rewrite <- (firstn_skipn n ts) at 1. rewrite nest_run_app.
  destruct (nest_run (firstn n ts) 0 []); [eauto | discriminate].
Qed.

(** The loop of the balancer, started with [balance] on the token of index
    [n], stops on the [balance]-th bracket of its kind that is still open
    before [n]; without such a bracket it runs to index 0 and fails. *)
Lemma skip_to_left_loop_nth_open k : forall (n : nat) st,
  open_before ts (Z.of_nat n) = Some st ->
  (n <= List.length ts)%nat ->
  forall balance fuel, 1 <= balance -> (n < fuel)%nat ->
  skip_to_left_loop fuel (opener k) (closer k) balance
    (mk_iter ts (Z.of_nat n)) =
  Ret (match nth_open st k balance with
       | Some j => (true, mk_iter ts j)
       | None => (false, mk_iter ts 0)
       end).
Proof.
  induction n as [|n IH]; intros st Hst Hn balance fuel Hb Hf.
  - change (open_before ts (Z.of_nat 0)) with (open_before ts 0) in Hst.
    rewrite open_before_0 in Hst. injection Hst as <-.
    destruct fuel as [|fuel]; [zlia|]. cbn [skip_to_left_loop nth_open].
    destruct (balance =? 0) eqn:E; [zlia|]. reflexivity.
  - destruct (nth_error ts n) as [t|] eqn:Ht;
      [|apply nth_error_None in Ht; lia].
    rewrite (open_before_S _ _ Ht) in Hst.
    destruct (open_before ts (Z.of_nat n)) as [st0|] eqn:H0; [|discriminate].
    destruct fuel as [|fuel]; [zlia|].
    assert (balance <> 0) as Hb0 by lia.
    rewrite (skip_to_left_loop_S fuel _ _ balance ts n t Hb0 Ht).
    assert (Hn' : (n <= List.length ts)%nat) by lia.
    assert (Hf' : (n < fuel)%nat) by lia.
    specialize (IH st0 eq_refl Hn').
    unfold nest_step in Hst. destruct (role (tok t)) as [k'|k'|] eqn:Ro.
    + apply role_Opens in Ro. rewrite Ro.
      injection Hst as <-. cbn [nth_open].
      rewrite eqb_opener_closer, eqb_opener_opener.
      destruct (bracket_eqb k' k).
      * destruct (balance =? 1) eqn:B1.
        -- replace (balance - 1) with 0 by zlia. apply skip_to_left_loop_0.
        -- apply IH; [zlia | assumption].
      * apply IH; assumption.
    + apply role_Closes in Ro. rewrite Ro.
      destruct st0 as [|[k'' j] st0]; [discriminate|].
      destruct (bracket_eqb k'' k') eqn:K; [|discriminate].
      injection Hst as <-. apply bracket_eqb_eq in K. subst k''.
      rewrite eqb_closer_closer, eqb_closer_opener.
      destruct (bracket_eqb k' k) eqn:K.
      * rewrite IH by (lia || assumption). cbn [nth_open]. rewrite K.
        destruct (balance + 1 =? 1) eqn:B1; [zlia|].
        now replace (balance + 1 - 1) with balance by lia.
      * rewrite IH by assumption. cbn [nth_open]. now rewrite K.
    + destruct (role_NoBracket _ k Ro) as [-> ->].
      injection Hst as <-. apply IH; assumption.
Qed.

(** Every bracket on the stack is an opener of its kind, left of the index
    the stack is taken at. *)
Lemma open_before_entries : forall (n : nat) st,
  open_before ts (Z.of_nat n) = Some st ->
  (n <= List.length ts)%nat ->
  Forall (fun e => 0 <= snd e < Z.of_nat n /\
                   exists o, index_Z ts (snd e) = Some o /\
                             tok o = opener (fst e)) st.
Proof.
  induction n as [|n IH]; intros st Hst Hn.
  - change (open_before ts (Z.of_nat 0)) with (open_before ts 0) in Hst.
    rewrite open_before_0 in Hst. injection Hst as <-. constructor.
  - destruct (nth_error ts n) as [t|] eqn:Ht;
      [|apply nth_error_None in Ht; lia].
    rewrite (open_before_S _ _ Ht) in Hst.
    destruct (open_before ts (Z.of_nat n)) as [st0|] eqn:H0; [|discriminate].
    assert (Forall (fun e => 0 <= snd e < Z.of_nat (S n) /\
                   exists o, index_Z ts (snd e) = Some o /\
                             tok o = opener (fst e)) st0) as F.
    { eapply Forall_impl; [|apply (IH st0 eq_refl); lia].
      intros e [H1 H2]. split; [lia | exact H2]. }
    unfold nest_step in Hst. destruct (role (tok t)) as [k'|k'|] eqn:Ro.
    + injection Hst as <-. constructor; [|exact F]. cbn [fst snd].
      split; [zlia|]. exists t. split; [|now apply role_Opens].
      unfold index_Z. destruct (Z.of_nat n <? 0) eqn:E; [zlia|].
      now rewrite Nat2Z.id.
    + destruct st0 as [|[k'' j] st0]; [discriminate|].
      destruct (bracket_eqb k'' k'); [|discriminate].
      injection Hst as <-. now inversion F.
    + injection Hst as <-. exact F.
Qed.

End Nesting.

(** *** The balancer on properly nested brackets *)

Lemma index_Z_nth {A} (l : list A) i x :
  index_Z l i = Some x -> i = Z.of_nat (Z.to_nat i) /\
                          nth_error l (Z.to_nat i) = Some x.
Proof.
  intro H. pose proof (index_Z_Some _ _ _ H) as R. unfold index_Z in H.
  destruct (i <? 0) eqn:E; [discriminate|]. split; [lia | exact H].
Qed.

Lemma token_at ts i t :
  index_Z ts i = Some t -> token (mk_iter ts i) = Ret (t, mk_iter ts i).
Proof. intro H. unfold token. cbn [tokens token_index]. now rewrite H. Qed.

(** C2. On a token sequence whose brackets are properly nested, with the
    read index on a closing bracket, [skip_to_balanced_pair] returns true and
    leaves the index on the opening bracket that this closer closes: an opener
    of the same kind, to its left, whatever the depth of nesting. *)
Theorem skip_to_balanced_pair_matching ts i t k :
  properly_nested ts = true ->
  index_Z ts i = Some t -> tok t = closer k ->
  exists j o,
    matching_opener ts i = Some j /\
    index_Z ts j = Some o /\ tok o = opener k /\ j < i /\
    skip_to_balanced_pair (mk_iter ts i) = Ret (true, mk_iter ts j).
Proof.
  intros PN Hi Ht.
  destruct (index_Z_nth _ _ _ Hi) as [Ei Hn].
  set (n := Z.to_nat i) in *.
  assert (n < List.length ts)%nat as Ln by (apply nth_error_Some; congruence).
  destruct (properly_nested_open_before ts (S n) PN) as [st' H1].
  pose proof H1 as H2. rewrite (open_before_S _ _ _ Hn) in H2.
  destruct (open_before ts (Z.of_nat n)) as [st|] eqn:H0; [|discriminate].
  unfold nest_step in H2. rewrite Ht, role_closer in H2.
  destruct st as [|[k' j] st]; [discriminate|].
  destruct (bracket_eqb k' k) eqn:K; [|discriminate].
  apply bracket_eqb_eq in K. subst k'.
  pose proof (open_before_entries ts n _ H0 (Nat.lt_le_incl _ _ Ln)) as F.
  inversion F as [|e l [Hj (o & Ho & Hk)] F']. subst e l. cbn [fst snd] in *.
  exists j, o. rewrite Ei.
  split; [|split; [exact Ho | split; [exact Hk | split; [lia|]]]].
  - unfold matching_opener. rewrite <- Ei, Hi, Ei, H0, Ht, role_closer.
    destruct k; reflexivity.
  - unfold skip_to_balanced_pair, bind at 1. rewrite <- Ei at 1.
    rewrite (token_at _ _ _ Hi), Ht, bracket_pairs_map_closer.
    unfold skip_to_left, bind. rewrite (token_at _ _ _ Hi), Ht.
    rewrite eqb_closer_opener. unfold with_fuel. cbn [tokens].
    rewrite Ei.
    rewrite (skip_to_left_loop_nth_open ts k n _ H0) by lia.
    cbn [nth_open]. now destruct k.
Qed.

Lemma skip_to_balanced_pair_matching_witness :
  properly_nested nested_tokens = true /\
  index_Z nested_tokens 9 = Some (mk_item RPAREN "") /\
  exists j o,
    matching_opener nested_tokens 9 = Some j /\
    index_Z nested_tokens j = Some o /\ tok o = opener Paren /\ j < 9 /\
    skip_to_balanced_pair (mk_iter nested_tokens 9) =
    Ret (true, mk_iter nested_tokens j).
Proof.
  split; [reflexivity|]. split; [reflexivity|].
  apply (skip_to_balanced_pair_matching nested_tokens 9
           (mk_item RPAREN "") Paren); reflexivity.
Defined.

(** *** The balancer without an opener *)

Section Exhaustion.

Variables left right : Token.
Variable ts : list token_item.

Lemma lefts_run_app l1 : forall l2 i st,
  lefts_run left right (l1 ++ l2) i st =
  lefts_run left right l2 (i + Z.of_nat (List.length l1))
    (lefts_run left right l1 i st).
Proof.
  induction l1 as [|t l1 IH]; intros l2 i st; cbn [app lefts_run List.length].
  - now rewrite Z.add_0_r.
  - rewrite IH. now replace (i + 1 + Z.of_nat (List.length l1))
      with (i + Z.of_nat (S (List.length l1))) by lia.
Qed.

Lemma lefts_before_S (n : nat) t :
  nth_error ts n = Some t ->
  lefts_before left right ts (Z.of_nat (S n)) =
  lefts_step left right (Z.of_nat n) (lefts_before left right ts (Z.of_nat n)) t.
Proof.
  intro H. unfold lefts_before. rewrite !Nat2Z.id.
  rewrite (firstn_S_nth _ _ _ H), lefts_run_app. cbn [lefts_run].
  rewrite length_firstn.
  assert (n < List.length ts)%nat as L
    by (apply nth_error_Some; congruence).
  now replace (0 + Z.of_nat (Nat.min n (List.length ts))) with (Z.of_nat n)
    by lia.
Qed.

(** The loop of the balancer on any tokens: started with [balance] on the
    index [n], it stops on the [balance]-th [left] still open before [n], and
    without one it runs to index 0 and fails. *)
Lemma skip_to_left_loop_lefts : forall (n : nat),
  (n <= List.length ts)%nat ->
  forall balance fuel, 1 <= balance -> (n < fuel)%nat ->
  skip_to_left_loop fuel left right balance (mk_iter ts (Z.of_nat n)) =
  Ret (match nth_error (lefts_before left right ts (Z.of_nat n))
               (Z.to_nat (balance - 1)) with
       | Some j => (true, mk_iter ts j)
       | None => (false, mk_iter ts 0)
       end).
Proof.
  induction n as [|n IH]; intros Hn balance fuel B F.
  - destruct fuel as [|fuel]; [lia|]. cbn [skip_to_left_loop].
    destruct (balance =? 0) eqn:E; [zlia|].
    unfold lefts_before. cbn [Z.to_nat firstn lefts_run].
    now destruct (Z.to_nat (balance - 1)).
  - destruct (nth_error ts n) as [t|] eqn:Ht;
      [|apply nth_error_None in Ht; lia].
    destruct fuel as [|fuel]; [lia|].
    assert (balance <> 0) as B0 by lia.
    rewrite (skip_to_left_loop_S fuel _ _ balance ts n t B0 Ht).
    rewrite (lefts_before_S _ _ Ht). unfold lefts_step.
    assert (Hn' : (n <= List.length ts)%nat) by lia.
    assert (Hf' : (n < fuel)%nat) by lia.
    specialize (IH Hn').
    destruct (Token_eqb (tok t) right).
    + rewrite IH by (lia || assumption).
      replace (Z.to_nat (balance + 1 - 1)) with (S (Z.to_nat (balance - 1)))
        by lia.
      destruct (lefts_before left right ts (Z.of_nat n)) as [|j st];
        [|reflexivity].
      cbn [tl nth_error]. now destruct (Z.to_nat (balance - 1)).
    + destruct (Token_eqb (tok t) left).
      * destruct (balance =? 1) eqn:B1.
        -- replace (balance - 1) with 0 by zlia. apply skip_to_left_loop_0.
        -- rewrite IH by (zlia || assumption).
           now replace (Z.to_nat (balance - 1))
             with (S (Z.to_nat (balance - 1 - 1))) by zlia.
      * apply IH; assumption.
Qed.

(** Without a [left] among the tokens before [i], none is open before [i]. *)
Lemma none_before_lefts_before (n : nat) :
  (n <= List.length ts)%nat ->
  none_before left ts (Z.of_nat n) = true ->
  lefts_before left right ts (Z.of_nat n) = [].
Proof.
  induction n as [|n IH]; intros Hn Hb; [reflexivity|].
  destruct (nth_error ts n) as [t|] eqn:Ht;
    [|apply nth_error_None in Ht; lia].
  rewrite (lefts_before_S _ _ Ht).
  unfold none_before in Hb, IH. rewrite Nat2Z.id in Hb, IH.
  rewrite (firstn_S_nth _ _ _ Ht), forallb_app in Hb. cbn [forallb] in Hb.
  rewrite !andb_true_iff, negb_true_iff in Hb. destruct Hb as (Hb & Hl & _).
  rewrite IH by (lia || assumption). unfold lefts_step. rewrite Hl.
  now destruct (Token_eqb (tok t) right).
Qed.

End Exhaustion.

(** C5. The balancer returns on every iterator in range, with the same
    tokens and the index still in range.  Invoked on a closer that closes
    nothing, no opener of its kind being open before it, as when there is
    no such opener at all among the tokens before it, the balancer returns
    false with the index on the oldest token, index 0.  The classification
    returns an answer on every input. *)
Theorem skip_to_left_exhaustion :
  (forall left right ti, in_range ti ->
     exists ok ti', skip_to_left left right ti = Ret (ok, ti') /\
                    tokens ti' = tokens ti /\ in_range ti') /\
  (forall left right ti t,
     index_Z (tokens ti) (token_index ti) = Some t ->
     tok t = right -> Token_eqb right left = false ->
     lefts_before left right (tokens ti) (token_index ti) = [] \/
     none_before left (tokens ti) (token_index ti) = true ->
     skip_to_left left right ti = Ret (false, mk_iter (tokens ti) 0)) /\
  (forall scans size cursor,
     exists a, deduce_cursor_context_helper scans size cursor = Ret a).
Proof.
  split; [|split].
  - intros left right ti R.
    destruct (yields_skip_to_left left right ti R) as (ok & ti' & E & S & _).
    exists ok, ti'. split; [exact E|]. split; [apply S|].
    exact (steady_in_range _ _ R S).
  - intros left right [ts i] t Hi Ht Hne Hb. cbn [tokens token_index] in *.
    destruct (index_Z_nth _ _ _ Hi) as [Ei Hn].
    assert (Z.to_nat i < List.length ts)%nat as Ln
      by (apply nth_error_Some; congruence).
    assert (lefts_before left right ts (Z.of_nat (Z.to_nat i)) = []) as Hl.
    { rewrite Ei in Hb. destruct Hb as [Hb | Hb]; [exact Hb|].
      apply none_before_lefts_before; [lia | exact Hb]. }
    unfold skip_to_left, bind. rewrite (token_at _ _ _ Hi), Ht, Hne.
    unfold with_fuel. cbn [tokens]. rewrite Ei.
    rewrite skip_to_left_loop_lefts by lia. now rewrite Hl.
  - apply deduce_cursor_context_helper_returns.
Qed.

Lemma skip_to_left_exhaustion_witness :
  in_range (mk_iter unbalanced_tokens 4) /\
  lefts_before LPAREN RPAREN unbalanced_tokens 4 = [] /\
  skip_to_left LPAREN RPAREN (mk_iter unbalanced_tokens 4) =
  Ret (false, mk_iter unbalanced_tokens 0) /\
  none_before LBRACK unbalanced_tokens 3 = true /\
  skip_to_left LBRACK RBRACK (mk_iter unbalanced_tokens 3) =
  Ret (false, mk_iter unbalanced_tokens 0) /\
  exists ok ti', skip_to_left LBRACE RBRACE (mk_iter unbalanced_tokens 4) =
                 Ret (ok, ti') /\
                 tokens ti' = unbalanced_tokens /\ in_range ti'.
Proof.
  assert (in_range (mk_iter unbalanced_tokens 4)) as R4
    by (unfold in_range; simpl; lia).
  split; [exact R4|]. split; [reflexivity|]. split; [|split; [reflexivity|split]].
  - apply (proj1 (proj2 skip_to_left_exhaustion) LPAREN RPAREN
             (mk_iter unbalanced_tokens 4) (mk_item RPAREN ""));
      try reflexivity. left. reflexivity.
  - apply (proj1 (proj2 skip_to_left_exhaustion) LBRACK RBRACK
             (mk_iter unbalanced_tokens 3) (mk_item RBRACK ""));
      try reflexivity. right. reflexivity.
  - exact (proj1 skip_to_left_exhaustion LBRACE RBRACE
             (mk_iter unbalanced_tokens 4) R4).
Defined.

(** *** The index stays in range *)

Lemma yields_keeps_range {A} (m : M A) :
  (forall ti, in_range ti -> yields anything m ti) -> keeps_range m.
Proof.
  intros H ti R. destruct (H ti R) as (a & ti' & E & S & _).
  exists a, ti'. split; [exact E|]. split; [apply S|].
  exact (steady_in_range _ _ R S).
Qed.

(** C9. A classification call never indexes the tokens out of range: it
    returns an answer on every input, the iterator it builds is in range
    whenever it holds a token, [go_back] never takes the index below 0, and
    every operation on an iterator in range returns with the iterator in
    range. *)
Theorem token_index_in_range :
  (forall scans size cursor,
     exists a, deduce_cursor_context_helper scans size cursor = Ret a) /\
  (forall scans size cursor iter off,
     new_token_iterator scans size cursor = (iter, off) ->
     tokens iter <> [] -> in_range iter /\ 1 <= off) /\
  (forall ti ok ti', go_back ti = Ret (ok, ti') -> 0 <= token_index ti ->
     0 <= token_index ti') /\
  keeps_range token /\ keeps_range go_back /\
  (forall left right, keeps_range (skip_to_left left right)) /\
  keeps_range skip_to_balanced_pair /\ keeps_range skip_to_left_curly /\
  keeps_range extract_struct_type /\ keeps_range extract_go_expr /\
  (forall off, 1 <= off -> keeps_range (deduce_from off)).
Proof.
  split; [apply deduce_cursor_context_helper_returns|].
  split.
  { intros scans size cursor iter off E N.
    destruct (new_token_iterator_in_range _ _ _ _ _ E N) as (R & O & _).
    auto. }
  split.
  { intros ti ok ti' E H. apply go_back_eq in E.
    destruct E as [_ [(_ & _ & ->) | (_ & P & ->)]]; lia. }
  repeat split.
  - apply yields_keeps_range, yields_token.
  - apply yields_keeps_range, yields_go_back.
  - intros left right. apply yields_keeps_range, yields_skip_to_left.
  - apply yields_keeps_range, yields_skip_to_balanced_pair.
  - apply yields_keeps_range. intro ti. apply yields_skip_to_left.
  - apply yields_keeps_range, yields_extract_struct_type.
  - apply yields_keeps_range, yields_extract_go_expr.
  - intros off O. apply yields_keeps_range. intros ti R.
    now apply yields_deduce_from.
Qed.

Lemma token_index_in_range_witness :
  new_token_iterator (scans_of src_select) 10 10 =
    (mk_iter [mk_item IDENT "foo"; mk_item PERIOD ""; mk_item IDENT "Bar";
              mk_item PERIOD ""; mk_item IDENT "Ba"] 4, 2) /\
  in_range (mk_iter [mk_item IDENT "foo"; mk_item PERIOD "";
                     mk_item IDENT "Bar"; mk_item PERIOD "";
                     mk_item IDENT "Ba"] 4) /\ 1 <= 2.
Proof.
  split; [reflexivity|].
  apply (proj1 (proj2 token_index_in_range) (scans_of src_select) 10 10);
    [reflexivity | discriminate].
Defined.

(** *** The structural-type extractor *)

Lemma bind_go_back_at {A} (f : bool -> M A) ts i :
  bind go_back f (mk_iter ts i) =
  if i <=? 0 then f false (mk_iter ts i) else f true (mk_iter ts (i - 1)).
Proof.
  unfold bind, go_back. cbn [tokens token_index]. now destruct (i <=? 0).
Qed.

Lemma bind_token_at {A} (f : token_item -> M A) ts i t :
  index_Z ts i = Some t -> bind token f (mk_iter ts i) = f t (mk_iter ts i).
Proof. intro H. unfold bind. now rewrite (token_at _ _ _ H). Qed.

Lemma index_Z_negative {A} (l : list A) i : i < 0 -> index_Z l i = None.
Proof. intro H. unfold index_Z. destruct (i <? 0) eqn:E; [reflexivity | zlia]. Qed.

(** C7. Once the extractor stands on the enclosing open brace, index [j],
    with an identifier [b] just before it, it returns [p.b] when a period
    stands before [b] and an identifier [p] before the period, and [b] alone
    otherwise; nothing left of [p] is read.  On [pkg.Point{] with the cursor
    after the brace the extraction gives [pkg.Point]. *)
Theorem extract_struct_type_qualified :
  (forall ti ti' b,
     skip_to_left_curly ti = Ret (true, ti') ->
     index_Z (tokens ti') (token_index ti' - 1) = Some b ->
     tok b = IDENT ->
     exists ti'',
       extract_struct_type ti =
       Ret (qualified_name (tokens ti') (token_index ti'), ti'') /\
       token_index ti' - 3 <= token_index ti'') /\
  deduce_on_source src_qualified 10 =
  Some (Ret (compositeLiteralContext, "pkg.Point", "")).
Proof.
  split; [|reflexivity].
  intros ti [ts j] b H Hb Hk. cbn [tokens token_index] in *.
  pose proof (index_Z_Some _ _ _ Hb) as Rb.
  unfold extract_struct_type, bind at 1. rewrite H. cbn [negb].
  unfold qualified_name. rewrite Hb.
  rewrite bind_go_back_at.
  destruct (j <=? 0) eqn:E0; [zlia|]. cbn [negb].
  rewrite (bind_token_at _ _ _ _ Hb), Hk.
  change (negb (Token_eqb IDENT IDENT)) with false. cbv iota.
  rewrite bind_go_back_at.
  destruct (j - 1 <=? 0) eqn:E1; cbn [negb].
  { rewrite index_Z_negative by zlia. eexists. split; [reflexivity|].
    cbn [token_index]. lia. }
  replace (j - 1 - 1) with (j - 2) by lia.
  destruct (index_Z ts (j - 2)) as [dot|] eqn:Hd;
    [|exfalso; destruct (index_Z_in_range ts (j - 2)) as [x Hx];
      [zlia | congruence]].
  rewrite (bind_token_at _ _ _ _ Hd).
  destruct (Token_eqb (tok dot) PERIOD) eqn:Kd; cbn [negb andb].
  2:{ eexists. split; [destruct (index_Z ts (j - 3)); reflexivity|].
      cbn [token_index]. lia. }
  rewrite bind_go_back_at.
  destruct (j - 2 <=? 0) eqn:E2; cbn [negb].
  { rewrite index_Z_negative by zlia. eexists. split; [reflexivity|].
    cbn [token_index]. lia. }
  replace (j - 2 - 1) with (j - 3) by lia.
  destruct (index_Z ts (j - 3)) as [p|] eqn:Hp;
    [|exfalso; destruct (index_Z_in_range ts (j - 3)) as [x Hx];
      [zlia | congruence]].
  rewrite (bind_token_at _ _ _ _ Hp).
  destruct (Token_eqb (tok p) IDENT) eqn:Kp; cbn [negb];
    eexists; (split; [reflexivity|]); cbn [token_index]; lia.
Qed.

Lemma extract_struct_type_qualified_witness :
  skip_to_left_curly
    (mk_iter [mk_item IDENT "a"; mk_item PERIOD ""; mk_item IDENT "pkg";
              mk_item PERIOD ""; mk_item IDENT "Point"; mk_item LBRACE "";
              mk_item IDENT "X"; mk_item COMMA ""] 7) =
  Ret (true,
       mk_iter [mk_item IDENT "a"; mk_item PERIOD ""; mk_item IDENT "pkg";
                mk_item PERIOD ""; mk_item IDENT "Point"; mk_item LBRACE "";
                mk_item IDENT "X"; mk_item COMMA ""] 5) /\
  exists ti'',
    extract_struct_type
      (mk_iter [mk_item IDENT "a"; mk_item PERIOD ""; mk_item IDENT "pkg";
                mk_item PERIOD ""; mk_item IDENT "Point"; mk_item LBRACE "";
                mk_item IDENT "X"; mk_item COMMA ""] 7) =
    Ret ("pkg.Point", ti'') /\ 5 - 3 <= token_index ti''.
Proof.
  split; [reflexivity|].
  exact (proj1 extract_struct_type_qualified _ _ (mk_item IDENT "Point")
           (eq_refl : skip_to_left_curly
              (mk_iter [mk_item IDENT "a"; mk_item PERIOD "";
                        mk_item IDENT "pkg"; mk_item PERIOD "";
                        mk_item IDENT "Point"; mk_item LBRACE "";
                        mk_item IDENT "X"; mk_item COMMA ""] 7) =
              Ret (true, mk_iter _ 5))
           eq_refl eq_refl).
Defined.

(** *** The partial identifier *)

Lemma deduce_on_tokens scans size cursor iter off t :
  new_token_iterator scans size cursor = (iter, off) ->
  index_Z (tokens iter) (token_index iter) = Some t ->
  in_range iter /\ 1 <= off /\
  deduce_cursor_context_helper scans size cursor =
  match deduce_from off iter with
  | Ret (a, _) => Ret a
  | Fault e => Fault e
  end.
Proof.
  intros E Ht. pose proof (index_Z_Some _ _ _ Ht) as R.
  assert (tokens iter <> []) as N.
  { intro N. rewrite N in R. cbn in R. lia. }
  destruct (new_token_iterator_in_range _ _ _ _ _ E N) as (R' & O & _).
  split; [exact R'|]. split; [exact O|].
  unfold deduce_cursor_context_helper. rewrite E.
  destruct (Z.of_nat (List.length (tokens iter)) =? 0) eqn:L; [zlia|].
  reflexivity.
Qed.

(** C8. When the token before the cursor is an identifier and the trailing
    offset exceeds the length of its text, the answer is
    the unknown context with two empty strings: no partial identifier is
    returned. *)
Theorem identifier_then_space scans size cursor iter off t :
  new_token_iterator scans size cursor = (iter, off) ->
  index_Z (tokens iter) (token_index iter) = Some t ->
  tok t = IDENT ->
  len_string (literal t) < off ->
  deduce_cursor_context_helper scans size cursor = Ret (unknownContext, "", "").
Proof.
  intros E Ht Hk Hl.
  destruct (deduce_on_tokens _ _ _ _ _ _ E Ht) as (_ & _ & ->).
  unfold deduce_from, bind, token. rewrite Ht, Hk. cbn [Token_eqb].
  change (Token_code IDENT =? Token_code STRING) with false.
  change (Token_code IDENT =? Token_code IDENT) with true.
  cbn [is_partial_token].
  destruct (len_string (literal t) <? off) eqn:L; [reflexivity | zlia].
Qed.

Lemma identifier_then_space_witness :
  new_token_iterator (scans_of src_ident_space) 4 4 =
    (mk_iter [mk_item IDENT "foo"] 0, 4) /\
  len_string (literal (mk_item IDENT "foo")) < 4 /\
  deduce_cursor_context_helper (scans_of src_ident_space) 4 4 =
  Ret (unknownContext, "", "").
Proof.
  split; [reflexivity|]. split; [reflexivity|].
  apply (identifier_then_space (scans_of src_ident_space) 4 4
           (mk_iter [mk_item IDENT "foo"] 0) 4 (mk_item IDENT "foo"));
    reflexivity.
Defined.

(** C10. When the token before the cursor is one of the keywords [type],
    [const], [var], [func], [package], the partial identifier of the answer
    is the whole keyword, whatever the trailing offset; the source [var ]
    with the cursor at offset 4 gives the unknown context, an empty
    expression and the partial identifier [var], where an identifier in the
    same place gives an empty partial identifier. *)
Theorem keyword_partial_unguarded :
  (forall scans size cursor iter off t,
     new_token_iterator scans size cursor = (iter, off) ->
     index_Z (tokens iter) (token_index iter) = Some t ->
     is_declaration_keyword (tok t) = true ->
     exists ctx e,
       deduce_cursor_context_helper scans size cursor =
       Ret (ctx, e, Token_String (tok t))) /\
  deduce_on_source src_var 4 = Some (Ret (unknownContext, "", "var")) /\
  deduce_on_source src_ident_space 4 = Some (Ret (unknownContext, "", "")).
Proof.
  split; [|split; reflexivity].
  intros scans size cursor iter off t E Ht Hk.
  destruct (deduce_on_tokens _ _ _ _ _ _ E Ht) as (R & _ & ->).
  assert (deduce_from off iter = deduce_back (Token_String (tok t)) iter) as D.
  { unfold deduce_from, bind at 1, token. rewrite Ht.
    destruct (tok t) eqn:K; try discriminate; unfold literal; rewrite K;
      reflexivity. }
  rewrite D.
  destruct (yields_deduce_back (Token_String (tok t)) iter R)
    as ([[ctx e] p] & ti' & -> & _ & P).
  unfold has_partial in P. cbn [snd] in P. subst p. eauto.
Qed.

Lemma keyword_partial_unguarded_witness :
  new_token_iterator (scans_of src_var) 4 4 =
    (mk_iter [mk_item VAR "var"] 0, 4) /\
  len_string "var" < 4 /\
  exists ctx e,
    deduce_cursor_context_helper (scans_of src_var) 4 4 = Ret (ctx, e, "var").
Proof.
  split; [reflexivity|]. split; [reflexivity|].
  apply (proj1 keyword_partial_unguarded (scans_of src_var) 4 4
           (mk_iter [mk_item VAR "var"] 0) 4 (mk_item VAR "var"));
    reflexivity.
Defined.

(** *** The trailing offset *)

Lemma last_pos_last_scan (l : list scanned) (d : Z) :
  last (map s_pos l) d =
  match last_scan l with Some r => s_pos r | None => d end.
Proof.
  induction l as [|r l IH]; [reflexivity|].
  cbn [map]. rewrite last_cons.
  destruct l as [|r' l]; [reflexivity|].
  rewrite <- (last_cons _ _ d). exact IH.
Qed.

Lemma file_Pos_in_file size cursor :
  0 <= cursor <= size -> file_Pos fset_Base size cursor = fset_Base + cursor.
Proof.
  intro H. unfold file_Pos, fixOffset.
  destruct (cursor <? 0) eqn:E1; [zlia|].
  destruct (size <? cursor) eqn:E2; [zlia | reflexivity].
Qed.

(** C6, as the code has it.  For a cursor inside the source, the constructor
    keeps the scans that start before the cursor; with at least one kept, the
    trailing offset is the cursor offset minus the offset at which the last
    of them starts; with none kept it is the cursor offset plus 1, the
    distance of the cursor position from [token.NoPos]. *)
Theorem new_token_iterator_trailing_offset scans size cursor :
  0 <= cursor <= size ->
  let kept := collected scans (fset_Base + cursor) in
  tokens (fst (new_token_iterator scans size cursor)) = map item_of kept /\
  snd (new_token_iterator scans size cursor) =
  match last_scan kept with
  | Some r => cursor - file_Offset (s_pos r)
  | None => cursor + 1
  end.
Proof.
  intros H kept. rewrite new_token_iterator_eq.
  rewrite (file_Pos_in_file _ _ H). fold kept. cbn [fst snd tokens].
  split; [reflexivity|]. rewrite last_pos_last_scan.
  unfold file_Offset, NoPos, fset_Base.
  destruct (last_scan kept); lia.
Qed.

Lemma new_token_iterator_trailing_offset_witness :
  0 <= 13 <= 13 /\
  tokens (fst (new_token_iterator (scans_of src_composite) 13 13)) =
  map item_of (collected (scans_of src_composite) (fset_Base + 13)) /\
  snd (new_token_iterator (scans_of src_composite) 13 13) = 13 - 12.
Proof.
  split; [lia|].
  apply (new_token_iterator_trailing_offset (scans_of src_composite) 13 13).
  lia.
Defined.

(** C6 as stated fails: on the empty source no token is collected and the
    trailing offset is 1, not 0. *)
Lemma new_token_iterator_no_token_offset :
  GoScanner.scan_all "" = Some [] /\
  tokens (fst (new_token_iterator (scans_of "") 0 0)) = [] /\
  snd (new_token_iterator (scans_of "") 0 0) = 1 /\
  snd (new_token_iterator (scans_of "") 0 0) <> 0.
Proof. repeat split. discriminate. Qed.

(** *** The examples of the specification *)

(** C1 as stated fails: on the 13 bytes of [import], a space, a double quote
    and [foo/b], with the cursor at 13, the answer is not the import
    context. *)
Lemma import_open_not_import :
  len_string src_import_open = 13 /\
  deduce_on_source src_import_open 13 <>
  Some (Ret (importContext, "", "foo/b")).
Proof. split; [reflexivity | discriminate]. Qed.

(** C1, as the code has it.  With the closing quote in the source, 14 bytes,
    and the cursor at offset 13, right after the [b], the answer is the
    import context with an empty expression and the path [foo/b].  Without
    the closing quote the literal is 6 bytes long and the trailing offset is
    6: the cursor is not strictly inside it and the answer is the unknown
    context with two empty strings. *)
Theorem import_context_example :
  len_string src_import_closed = 14 /\
  deduce_on_source src_import_closed 13 =
  Some (Ret (importContext, "", "foo/b")) /\
  new_token_iterator (scans_of src_import_open) 13 13 =
  (mk_iter [mk_item IMPORT "import"; mk_item STRING (quoted_open "foo/b")] 1,
   6) /\
  len_string (quoted_open "foo/b") = 6 /\
  deduce_on_source src_import_open 13 = Some (Ret (unknownContext, "", "")).
Proof. repeat split. Qed.

(** C3. On [foo.Bar.Ba] with the cursor at offset 10 the answer is the
    select context with the expression [foo.Bar] and the partial identifier
    [Ba]. *)
Theorem select_context_example :
  deduce_on_source src_select 10 = Some (Ret (selectContext, "foo.Bar", "Ba")).
Proof. reflexivity. Qed.

(** C4. On [Point{X: 1, Y] with the cursor after the [Y], offset 13, the
    answer is the composite-literal context with the type name [Point] and
    the partial identifier [Y]. *)
Theorem composite_literal_example :
  len_string src_composite = 13 /\
  deduce_on_source src_composite 13 =
  Some (Ret (compositeLiteralContext, "Point", "Y")).
Proof. split; reflexivity. Qed.

(** * Further properties *)

(** ** The balancer on any tokens *)

Section OpenLefts.

Variables left right : Token.
Variable ts : list token_item.

(** Every index kept by the reading from the left holds a [left], left of
    where the reading stands. *)
Lemma lefts_before_entries : forall (n : nat),
  (n <= List.length ts)%nat ->
  Forall (fun j => 0 <= j < Z.of_nat n /\
                   exists o, index_Z ts j = Some o /\ tok o = left)
    (lefts_before left right ts (Z.of_nat n)).
Proof.
  induction n as [|n IH]; intro Hn; [constructor|].
  destruct (nth_error ts n) as [t|] eqn:Ht;
    [|apply nth_error_None in Ht; lia].
  rewrite (lefts_before_S _ _ _ _ _ Ht).
  assert (Forall (fun j => 0 <= j < Z.of_nat (S n) /\
                   exists o, index_Z ts j = Some o /\ tok o = left)
            (lefts_before left right ts (Z.of_nat n))) as F.
  { eapply Forall_impl; [|apply IH; lia].
    intros j [H1 H2]. split; [lia | exact H2]. }
  unfold lefts_step. destruct (Token_eqb (tok t) right).
  - destruct (lefts_before left right ts (Z.of_nat n)); [constructor|].
    now inversion F.
  - destruct (Token_eqb (tok t) left) eqn:K; [|exact F].
    constructor; [|exact F]. split; [lia|]. exists t.
    split; [|now apply Token_eqb_eq].
    unfold index_Z. destruct (Z.of_nat n <? 0) eqn:E; [zlia|].
    now rewrite Nat2Z.id.
Qed.

End OpenLefts.

Lemma skip_to_left_lefts left right ti t :
  index_Z (tokens ti) (token_index ti) = Some t ->
  Token_eqb (tok t) left = false ->
  skip_to_left left right ti =
  Ret (match lefts_before left right (tokens ti) (token_index ti) with
       | j :: _ => (true, mk_iter (tokens ti) j)
       | [] => (false, mk_iter (tokens ti) 0)
       end).
Proof.
  destruct ti as [ts i]. cbn [tokens token_index]. intros Hi Hl.
  destruct (index_Z_nth _ _ _ Hi) as [Ei Hn].
  assert (Z.to_nat i < List.length ts)%nat as Ln
    by (apply nth_error_Some; congruence).
  unfold skip_to_left, bind. rewrite (token_at _ _ _ Hi), Hl.
  unfold with_fuel. cbn [tokens]. rewrite Ei.
  rewrite skip_to_left_loop_lefts by lia.
  now destruct (lefts_before left right ts (Z.of_nat (Z.to_nat i))).
Qed.

(** X1. Started on a token other than [left], [skip_to_left] stops on the
    [left] that is open last when the tokens before the read index are read
    from the left for [left] and [right] alone; when none is open it fails
    with the index on 0. *)
Theorem skip_to_left_last_open left right ti t :
  index_Z (tokens ti) (token_index ti) = Some t ->
  Token_eqb (tok t) left = false ->
  skip_to_left left right ti =
  Ret (match lefts_before left right (tokens ti) (token_index ti) with
       | j :: _ => (true, mk_iter (tokens ti) j)
       | [] => (false, mk_iter (tokens ti) 0)
       end).
Proof. exact (skip_to_left_lefts left right ti t). Qed.

Lemma skip_to_left_last_open_witness :
  skip_to_left LPAREN RPAREN (mk_iter nested_tokens 6) =
  Ret (true, mk_iter nested_tokens 1).
Proof.
  exact (skip_to_left_last_open LPAREN RPAREN (mk_iter nested_tokens 6)
           (mk_item COMMA "") eq_refl eq_refl).
Defined.

(** X2. When [skip_to_left] returns true, the token under the read index is
    a [left], the index has not moved to the right, and the tokens are the
    same. *)
Theorem skip_to_left_true_on_left left right ti ti' :
  skip_to_left left right ti = Ret (true, ti') ->
  tokens ti' = tokens ti /\ token_index ti' <= token_index ti /\
  exists o, index_Z (tokens ti') (token_index ti') = Some o /\ tok o = left.
Proof.
  intro H. unfold skip_to_left, bind in H.
  destruct (token ti) as [[t ti0]|] eqn:Et; [|discriminate].
  apply token_eq in Et. destruct Et as [-> Hi].
  destruct (Token_eqb (tok t) left) eqn:Hl.
  - injection H as <-. split; [reflexivity|]. split; [lia|].
    exists t. split; [exact Hi | now apply Token_eqb_eq].
  - assert (skip_to_left left right ti = Ret (true, ti')) as H'.
    { unfold skip_to_left, bind.
      destruct ti as [ts i]. cbn [tokens token_index] in *.
      now rewrite (token_at _ _ _ Hi), Hl. }
    rewrite (skip_to_left_lefts _ _ _ _ Hi Hl) in H'.
    destruct (index_Z_nth _ _ _ Hi) as [Ei Hn].
    assert (Z.to_nat (token_index ti) <= List.length (tokens ti))%nat as Ln.
    { apply Nat.lt_le_incl, nth_error_Some. congruence. }
    pose proof (lefts_before_entries left right (tokens ti) _ Ln) as F.
    rewrite <- Ei in F.
    destruct (lefts_before left right (tokens ti) (token_index ti))
      as [|j st]; [discriminate|].
    injection H' as <-. cbn [tokens token_index].
    inversion F as [|x l [Hj Ho] F']. subst x l.
    split; [reflexivity|]. split; [lia | exact Ho].
Qed.

Lemma skip_to_left_true_on_left_witness :
  exists o, index_Z nested_tokens 7 = Some o /\ tok o = LBRACE.
Proof.
  apply (skip_to_left_true_on_left LBRACE RBRACE (mk_iter nested_tokens 8)
           (mk_iter nested_tokens 7) eq_refl).
Defined.

(** ** The balancer inside open brackets *)

(** X3. For the closer it is started on, [skip_to_balanced_pair] needs the
    nesting to be proper only up to that closer: brackets opened before and
    not yet closed, as around a cursor, do not matter. *)
Theorem skip_to_balanced_pair_in_prefix ts i t k st :
  index_Z ts i = Some t -> tok t = closer k ->
  open_before ts (i + 1) = Some st ->
  exists j o,
    matching_opener ts i = Some j /\
    index_Z ts j = Some o /\ tok o = opener k /\ j < i /\
    skip_to_balanced_pair (mk_iter ts i) = Ret (true, mk_iter ts j).
Proof.
  intros Hi Ht H1.
  destruct (index_Z_nth _ _ _ Hi) as [Ei Hn].
  set (n := Z.to_nat i) in *.
  assert (n < List.length ts)%nat as Ln by (apply nth_error_Some; congruence).
  replace (i + 1) with (Z.of_nat (S n)) in H1 by lia.
  rewrite (open_before_S _ _ _ Hn) in H1.
  destruct (open_before ts (Z.of_nat n)) as [st0|] eqn:H0; [|discriminate].
  unfold nest_step in H1. rewrite Ht, role_closer in H1.
  destruct st0 as [|[k' j] st0]; [discriminate|].
  destruct (bracket_eqb k' k) eqn:K; [|discriminate].
  apply bracket_eqb_eq in K. subst k'.
  pose proof (open_before_entries ts n _ H0 (Nat.lt_le_incl _ _ Ln)) as F.
  inversion F as [|e l [Hj (o & Ho & Hk)] F']. subst e l. cbn [fst snd] in *.
  exists j, o. rewrite Ei.
  split; [|split; [exact Ho | split; [exact Hk | split; [lia|]]]].
  - unfold matching_opener. rewrite <- Ei, Hi, Ei, H0, Ht, role_closer.
    destruct k; reflexivity.
  - unfold skip_to_balanced_pair, bind at 1. rewrite <- Ei at 1.
    rewrite (token_at _ _ _ Hi), Ht, bracket_pairs_map_closer.
    unfold skip_to_left, bind. rewrite (token_at _ _ _ Hi), Ht.
    rewrite eqb_closer_opener. unfold with_fuel. cbn [tokens].
    rewrite Ei.
    rewrite (skip_to_left_loop_nth_open ts k n _ H0) by lia.
    cbn [nth_open]. now destruct k.
Qed.

Lemma skip_to_balanced_pair_in_prefix_witness :
  properly_nested (firstn 6 nested_tokens) = false /\
  exists j o,
    matching_opener (firstn 6 nested_tokens) 5 = Some j /\
    index_Z (firstn 6 nested_tokens) j = Some o /\
    tok o = opener Brack /\ j < 5 /\
    skip_to_balanced_pair (mk_iter (firstn 6 nested_tokens) 5) =
    Ret (true, mk_iter (firstn 6 nested_tokens) j).
Proof.
  split; [reflexivity|].
  apply (skip_to_balanced_pair_in_prefix (firstn 6 nested_tokens) 5
           (mk_item RBRACK "") Brack [(Paren, 1)]); reflexivity.
Defined.

(** X4. Where the tokens before the read index nest properly, and the token
    under it is no open brace, [skip_to_left_curly] stops on the innermost
    brace still open there, whatever pairs of any kind lie between; with no
    brace open it fails with the index on 0. *)
Theorem skip_to_left_curly_innermost ts i t st :
  index_Z ts i = Some t -> Token_eqb (tok t) LBRACE = false ->
  open_before ts i = Some st ->
  skip_to_left_curly (mk_iter ts i) =
  Ret (match nth_open st Brace 1 with
       | Some j => (true, mk_iter ts j)
       | None => (false, mk_iter ts 0)
       end).
Proof.
  intros Hi Hl H0.
  destruct (index_Z_nth _ _ _ Hi) as [Ei Hn].
  assert (Z.to_nat i < List.length ts)%nat as Ln
    by (apply nth_error_Some; congruence).
  unfold skip_to_left_curly, skip_to_left, bind.
  rewrite (token_at _ _ _ Hi), Hl. unfold with_fuel. cbn [tokens].
  rewrite Ei. rewrite Ei in H0.
  change LBRACE with (opener Brace). change RBRACE with (closer Brace).
  now rewrite (skip_to_left_loop_nth_open ts Brace _ _ H0) by lia.
Qed.

Lemma skip_to_left_curly_innermost_witness :
  skip_to_left_curly (mk_iter (firstn 7 nested_tokens) 6) =
  Ret (false, mk_iter (firstn 7 nested_tokens) 0) /\
  skip_to_left_curly
    (mk_iter (mk_item LBRACE "" :: mk_item LBRACK "" :: nested_tokens) 11) =
  Ret (true, mk_iter (mk_item LBRACE "" :: mk_item LBRACK "" :: nested_tokens)
               0).
Proof.
  split.
  - exact (skip_to_left_curly_innermost (firstn 7 nested_tokens) 6
             (mk_item COMMA "") [(Paren, 1)] eq_refl eq_refl eq_refl).
  - exact (skip_to_left_curly_innermost
             (mk_item LBRACE "" :: mk_item LBRACK "" :: nested_tokens) 11
             (mk_item RPAREN "") [(Paren, 3); (Brack, 1); (Brace, 0)]
             eq_refl eq_refl eq_refl).
Defined.

(** ** The structural-type extractor without a type name *)

(** X5. The extractor returns the empty string when no open brace is found,
    and when the brace it stops on is the first token or follows a token
    other than an identifier, as in front of an anonymous struct literal. *)
Theorem extract_struct_type_empty ti :
  (forall ti', skip_to_left_curly ti = Ret (false, ti') ->
     extract_struct_type ti = Ret ("", ti')) /\
  (forall ti', skip_to_left_curly ti = Ret (true, ti') ->
     match index_Z (tokens ti') (token_index ti' - 1) with
     | Some b => Token_eqb (tok b) IDENT = false
     | None => True
     end ->
     in_range ti' ->
     exists ti'', extract_struct_type ti = Ret ("", ti'')).
Proof.
  split.
  - intros ti' H. unfold extract_struct_type, bind at 1. now rewrite H.
  - intros [ts j] H Hb R. unfold in_range in R. cbn [tokens token_index] in *.
    unfold extract_struct_type, bind at 1. rewrite H. cbn [negb].
    rewrite bind_go_back_at. destruct (j <=? 0) eqn:E0; cbn [negb].
    + eexists. reflexivity.
    + destruct (index_Z_in_range ts (j - 1)) as [b Eb]; [zlia|].
      rewrite Eb in Hb. rewrite (bind_token_at _ _ _ _ Eb), Hb. cbn [negb].
      eexists. reflexivity.
Qed.

Lemma extract_struct_type_empty_witness :
  exists ti'',
    extract_struct_type
      (mk_iter [mk_item STRUCT "struct"; mk_item LBRACE ""; mk_item RBRACE "";
                mk_item LBRACE ""; mk_item IDENT "X"; mk_item COMMA ""] 5) =
    Ret ("", ti'').
Proof.
  apply (proj2 (extract_struct_type_empty
           (mk_iter [mk_item STRUCT "struct"; mk_item LBRACE "";
                     mk_item RBRACE ""; mk_item LBRACE ""; mk_item IDENT "X";
                     mk_item COMMA ""] 5))
           (mk_iter [mk_item STRUCT "struct"; mk_item LBRACE "";
                     mk_item RBRACE ""; mk_item LBRACE ""; mk_item IDENT "X";
                     mk_item COMMA ""] 3)).
  - reflexivity.
  - reflexivity.
  - unfold in_range. simpl. lia.
Defined.

(** ** The reassembly of tokens *)

Lemma append_assoc (a b c : string) :
  ((a ++ b) ++ c)%string = (a ++ (b ++ c))%string.
Proof. induction a as [|x a IH]; cbn [append]; [reflexivity | now rewrite IH]. Qed.

Lemma text_app (a b : list token_item) :
  token_items_to_string (a ++ b) =
  (token_items_to_string a ++ token_items_to_string b)%string.
Proof.
  induction a as [|t a IH]; cbn [app token_items_to_string]; [reflexivity|].
  now rewrite IH, append_assoc.
Qed.

(** X6. The text of a concatenation of tokens is the concatenation of the
    texts. *)
Theorem token_items_to_string_app (a b : list token_item) :
  token_items_to_string (a ++ b) =
  (token_items_to_string a ++ token_items_to_string b)%string.
Proof. apply text_app. Qed.

(** ** The expression extractor returns the text of a run of tokens *)

Lemma yields_tokens_text_run lo hi ti :
  in_range ti -> 0 <= lo <= hi -> hi <= Z.of_nat (List.length (tokens ti)) ->
  yields (fun s => s = token_items_to_string
                        (firstn (Z.to_nat (hi - lo))
                           (skipn (Z.to_nat lo) (tokens ti))))
    (tokens_text lo hi) ti.
Proof.
  intros R H1 H2. unfold yields, tokens_text.
  rewrite slice_Z_in_range by assumption.
  eexists; eexists. split; [reflexivity|].
  split; [apply steady_refl, R | reflexivity].
Qed.

Lemma text_of_run_weaken ts ts' bound bound' orig s :
  ts' = ts -> bound' <= bound ->
  text_of_run ts' bound' orig s -> text_of_run ts bound orig s.
Proof.
  intros -> Hb (lo & Hlo & E). exists lo. split; [lia | exact E].
Qed.

Lemma yields_run_loop fuel orig : forall prev ti,
  in_range ti -> token_index ti < Z.of_nat fuel ->
  token_index ti <= orig <= Z.of_nat (List.length (tokens ti)) ->
  yields (text_of_run (tokens ti) (token_index ti) orig)
    (extract_go_expr_loop fuel orig prev) ti.
Proof.
  induction fuel as [|fuel IH]; intros prev ti R F O.
  - unfold in_range in R. lia.
  - cbn [extract_go_expr_loop]. ystep.
    + ystep. ystep.
      * ystep.
        eapply yields_weaken;
          [|apply yields_tokens_text_run; [assumption | |]; indices; lia].
        intros s ->. exists (token_index ti1 + 1).
        split; [indices; lia|]. indices. reflexivity.
      * eapply yields_weaken; [|apply IH; [assumption | |]; indices; lia].
        intro s. apply text_of_run_weaken; indices; [reflexivity | lia].
      * apply yields_bind; [now apply yields_skip_to_balanced_pair|].
        intros ok' ti2 E2 S2. keep_range ti2 S2. ystep.
        eapply yields_weaken; [|apply IH; [assumption | |]; indices; lia].
        intro s. apply text_of_run_weaken; indices; [reflexivity | lia].
    + eapply yields_weaken;
        [|apply yields_tokens_text_run; [assumption | |]; indices; lia].
      intros s ->. exists 0. split; [indices; lia|]. indices.
      now rewrite Z.sub_0_r.
Qed.

(** X7. On an iterator in range the expression extractor returns, with the
    same tokens, the text of a run of consecutive tokens that ends just
    before the token it was started on. *)
Theorem extract_go_expr_text_of_run ti :
  in_range ti ->
  exists s ti',
    extract_go_expr ti = Ret (s, ti') /\ tokens ti' = tokens ti /\
    text_of_run (tokens ti) (token_index ti) (token_index ti) s.
Proof.
  intro R.
  assert (yields (text_of_run (tokens ti) (token_index ti) (token_index ti))
            extract_go_expr ti) as Y.
  { unfold extract_go_expr. ystep. ystep.
    apply yields_with_fuel; [|assumption].
    intros fuel F.
    eapply yields_weaken;
      [|apply yields_run_loop; [assumption | |]; indices; lia].
    intro s. indices. exact (fun H => H). }
  destruct Y as (s & ti' & E & S & P). exists s, ti'.
  split; [exact E|]. split; [apply S | exact P].
Qed.

Lemma extract_go_expr_text_of_run_witness :
  exists s ti',
    extract_go_expr (mk_iter nested_tokens 6) = Ret (s, ti') /\
    tokens ti' = nested_tokens /\
    text_of_run nested_tokens 6 6 s.
Proof.
  apply (extract_go_expr_text_of_run (mk_iter nested_tokens 6)).
  unfold in_range. simpl. lia.
Defined.

(** ** The expression extractor on a chain of selectors *)

Lemma index_Z_app_r {A} (pre l : list A) k :
  0 <= k -> index_Z (pre ++ l) (Z.of_nat (List.length pre) + k) = index_Z l k.
Proof.
  intro H. unfold index_Z.
  destruct (Z.of_nat (List.length pre) + k <? 0) eqn:E1; [zlia|].
  destruct (k <? 0) eqn:E2; [zlia|].
  replace (Z.to_nat (Z.of_nat (List.length pre) + k))
    with (List.length pre + Z.to_nat k)%nat by lia.
  rewrite nth_error_app2 by lia. f_equal. lia.
Qed.

Lemma skipn_app_length {A} (pre l : list A) :
  skipn (List.length pre) (pre ++ l) = l.
Proof. induction pre as [|a pre IH]; [reflexivity | exact IH]. Qed.

Lemma length_selectors names :
  List.length (selectors names) = (2 * List.length names)%nat.
Proof.
  induction names as [|x names IH]; [reflexivity|].
  cbn [selectors List.length]. rewrite IH. lia.
Qed.

Lemma nth_selectors post : forall names (k : nat) x,
  nth_error names k = Some x ->
  nth_error (selectors names ++ post) (2 * k) = Some (mk_item IDENT x) /\
  nth_error (selectors names ++ post) (2 * k + 1) = Some (mk_item PERIOD "").
Proof.
  induction names as [|y names IH]; intros [|k] x H; try discriminate.
  - injection H as ->. split; reflexivity.
  - cbn [nth_error] in H. destruct (IH _ _ H) as [H1 H2].
    replace (2 * S k)%nat with (S (S (2 * k))) by lia.
    replace (S (S (2 * k)) + 1)%nat with (S (S (2 * k + 1))) by lia.
    cbn [selectors app nth_error]. split; assumption.
Qed.

Lemma append_empty_r (s : string) : (s ++ "")%string = s.
Proof. induction s as [|c s IH]; [reflexivity|]. cbn [append]. now rewrite IH. Qed.

Lemma text_selectors : forall names, names <> [] ->
  token_items_to_string
    (firstn (2 * List.length names - 1) (selectors names)) =
  String.concat "." names.
Proof.
  induction names as [|x names IH]; [congruence|]. intros _.
  destruct names as [|y names].
  - cbn. now rewrite append_empty_r.
  - replace (2 * List.length (x :: y :: names) - 1)%nat
      with (S (S (2 * List.length (y :: names) - 1)))
      by (cbn [List.length]; lia).
    cbn [selectors firstn token_items_to_string].
    change (selectors (y :: names))
      with (mk_item IDENT y :: mk_item PERIOD "" :: selectors names) in IH.
    rewrite IH by discriminate. reflexivity.
Qed.

Lemma ends_with_period_last pre :
  ends_with_period pre = false -> pre <> [] ->
  exists u, index_Z pre (Z.of_nat (List.length pre) - 1) = Some u /\
            Token_eqb (tok u) PERIOD = false.
Proof.
  intros H N. destruct (exists_last N) as (pre' & u & ->).
  unfold ends_with_period in H. rewrite rev_app_distr in H. cbn in H.
  exists u. split; [|exact H].
  rewrite length_app. cbn [List.length].
  replace (Z.of_nat (List.length pre' + 1) - 1)
    with (Z.of_nat (List.length pre') + 0) by lia.
  now rewrite index_Z_app_r by lia.
Qed.

Lemma index_Z_app_l {A} (pre l : list A) i x :
  index_Z pre i = Some x -> index_Z (pre ++ l) i = Some x.
Proof.
  intro H. pose proof (index_Z_Some _ _ _ H) as R. unfold index_Z in *.
  destruct (i <? 0); [discriminate|].
  rewrite nth_error_app1 by lia. exact H.
Qed.

Lemma expr_round_stop t :
  Token_eqb t PERIOD = false -> expr_round t IDENT = Break.
Proof. destruct t; intro H; try reflexivity; discriminate. Qed.

Section Chain.

Variables pre post : list token_item.
Variable names : list string.
Variable orig : Z.

Let T := pre ++ selectors names ++ post.
Let L := Z.of_nat (List.length pre).

Hypothesis stop : ends_with_period pre = false.
Hypothesis orig_in : L <= orig <= Z.of_nat (List.length T).

Lemma chain_token (k : nat) x :
  nth_error names k = Some x ->
  index_Z T (L + 2 * Z.of_nat k) = Some (mk_item IDENT x) /\
  index_Z T (L + 2 * Z.of_nat k + 1) = Some (mk_item PERIOD "").
Proof.
  intro H. destruct (nth_selectors post _ _ _ H) as [H1 H2].
  unfold T, L. rewrite <- Z.add_assoc, !index_Z_app_r by lia.
  unfold index_Z.
  destruct (2 * Z.of_nat k <? 0) eqn:E1; [zlia|].
  destruct (2 * Z.of_nat k + 1 <? 0) eqn:E2; [zlia|].
  replace (Z.to_nat (2 * Z.of_nat k)) with (2 * k)%nat by lia.
  replace (Z.to_nat (2 * Z.of_nat k + 1)) with (2 * k + 1)%nat by lia.
  split; assumption.
Qed.

(** From the name of index [k] of the chain, with an identifier to its
    right, the loop walks to the front of the chain and stops there. *)
Lemma chain_walk : forall (k : nat) x fuel,
  nth_error names k = Some x ->
  (List.length pre + 2 * k < fuel)%nat ->
  exists ti',
    extract_go_expr_loop fuel orig IDENT (mk_iter T (L + 2 * Z.of_nat k)) =
    Ret (token_items_to_string
           (firstn (Z.to_nat (orig - L)) (skipn (Z.to_nat L) T)), ti').
Proof.
  induction k as [|k IH]; intros x fuel Hx F.
  - destruct fuel as [|fuel]; [lia|]. cbn [extract_go_expr_loop].
    rewrite bind_go_back_at. replace (L + 2 * Z.of_nat 0) with L by lia.
    destruct (L <=? 0) eqn:E0; cbn [negb].
    + assert (L = 0) as -> by (unfold L in *; zlia).
      unfold tokens_text. cbn [tokens].
      rewrite slice_Z_in_range by lia. eexists. reflexivity.
    + assert (pre <> []) as N.
      { intro N. unfold L in E0. rewrite N in E0. discriminate. }
      destruct (ends_with_period_last _ stop N) as (u & Hu & Ku).
      fold L in Hu. apply (index_Z_app_l _ (selectors names ++ post)) in Hu.
      fold T in Hu. rewrite (bind_token_at _ _ _ _ Hu).
      rewrite (expr_round_stop _ Ku).
      unfold bind, get_index, tokens_text. cbn [tokens token_index].
      replace (L - 1 + 1) with L by lia.
      rewrite slice_Z_in_range by zlia. eexists. reflexivity.
  - destruct fuel as [|[|fuel]]; [lia | lia |].
    assert (exists y, nth_error names k = Some y) as [y Hy].
    { destruct (nth_error names k) eqn:E; [eauto|].
      apply nth_error_None in E.
      assert (nth_error names (S k) <> None) as N by congruence.
      apply nth_error_Some in N. lia. }
    destruct (chain_token _ _ Hy) as [Hi Hp].
    cbn [extract_go_expr_loop]. rewrite bind_go_back_at.
    destruct (L + 2 * Z.of_nat (S k) <=? 0) eqn:E0; [unfold L in *; zlia|].
    cbn [negb].
    replace (L + 2 * Z.of_nat (S k) - 1) with (L + 2 * Z.of_nat k + 1) by lia.
    rewrite (bind_token_at _ _ _ _ Hp). cbn [tok expr_round].
    change (negb (Token_eqb IDENT IDENT)) with false. cbv iota.
    rewrite bind_go_back_at.
    destruct (L + 2 * Z.of_nat k + 1 <=? 0) eqn:E1; [unfold L in *; zlia|].
    cbn [negb].
    replace (L + 2 * Z.of_nat k + 1 - 1) with (L + 2 * Z.of_nat k) by lia.
    rewrite (bind_token_at _ _ _ _ Hi). cbn [tok expr_round].
    apply (IH y); [exact Hy | lia].
Qed.

End Chain.

(** X8. Started on the period that ends a chain of selectors [x1.x2. ... xn.],
    the chain standing at the front of the tokens or after a token other than
    a period, the expression extractor returns [x1.x2. ... xn], the names
    joined by periods. *)
Theorem extract_go_expr_selector_chain pre names post :
  names <> [] -> ends_with_period pre = false ->
  exists ti',
    extract_go_expr
      (mk_iter (pre ++ selectors names ++ post)
         (Z.of_nat (List.length pre) + 2 * Z.of_nat (List.length names) - 1)) =
    Ret (String.concat "." names, ti').
Proof.
  intros N stop.
  set (T := pre ++ selectors names ++ post).
  set (L := Z.of_nat (List.length pre)).
  set (n := List.length names).
  assert (0 < n)%nat as Hn.
  { unfold n. destruct names; [congruence | cbn; lia]. }
  assert (Z.of_nat (List.length T) =
          L + 2 * Z.of_nat n + Z.of_nat (List.length post)) as LT.
  { unfold T, L, n. rewrite !length_app, length_selectors. lia. }
  destruct (nth_error names (n - 1)) as [x|] eqn:Hx;
    [|apply nth_error_None in Hx; unfold n in *; lia].
  assert (L <= L + 2 * Z.of_nat n - 1 <= Z.of_nat (List.length T)) as O by lia.
  destruct (chain_token pre post names (n - 1) x Hx) as [Hi Hp].
  fold T L in Hi, Hp.
  replace (L + 2 * Z.of_nat (n - 1) + 1) with (L + 2 * Z.of_nat n - 1)
    in Hp by lia.
  unfold extract_go_expr, bind at 1, get_index. cbn [token_index].
  rewrite (bind_token_at _ _ _ _ Hp). unfold with_fuel. cbn [tokens tok].
  cbn [extract_go_expr_loop]. rewrite bind_go_back_at.
  destruct (L + 2 * Z.of_nat n - 1 <=? 0) eqn:E0; [unfold L in *; zlia|].
  cbn [negb].
  replace (L + 2 * Z.of_nat n - 1 - 1) with (L + 2 * Z.of_nat (n - 1)) by lia.
  rewrite (bind_token_at _ _ _ _ Hi). cbn [tok expr_round].
  destruct (chain_walk pre post names (L + 2 * Z.of_nat n - 1) stop O
              (n - 1) x (List.length T) Hx) as [ti' E].
  { apply Nat2Z.inj_lt. rewrite LT. unfold L. lia. }
  fold T L in E. exists ti'. rewrite E. f_equal. f_equal.
  replace (Z.to_nat L) with (List.length pre) by (unfold L; lia).
  replace (Z.to_nat (L + 2 * Z.of_nat n - 1 - L)) with (2 * n - 1)%nat by lia.
  unfold T. rewrite skipn_app_length.
  rewrite firstn_app, length_selectors. fold n.
  replace (2 * n - 1 - 2 * n)%nat with 0%nat by lia.
  cbn [firstn]. rewrite app_nil_r. now apply text_selectors.
Qed.

Lemma extract_go_expr_selector_chain_witness :
  exists ti',
    extract_go_expr
      (mk_iter ([mk_item IDENT "x"; mk_item ASSIGN ""]
                ++ selectors ["foo"; "Bar"] ++ [mk_item IDENT "Ba"]) 5) =
    Ret ("foo.Bar", ti').
Proof.
  apply (extract_go_expr_selector_chain
           [mk_item IDENT "x"; mk_item ASSIGN ""] ["foo"; "Bar"]
           [mk_item IDENT "Ba"]); [discriminate | reflexivity].
Defined.

(** ** The context the last switch decides *)

Lemma context_after_not_import u : context_after u <> importContext.
Proof. destruct u as [[[] l]|]; discriminate. Qed.

Lemma yields_deduce_tail_context partial ti u :
  in_range ti -> index_Z (tokens ti) (token_index ti) = Some u ->
  yields (fun a => fst (fst a) = context_after (Some u) /\
                   snd a = partial /\
                   (context_after (Some u) = unknownContext ->
                    snd (fst a) = ""))
    (deduce_tail partial) ti.
Proof.
  intros R Hu. unfold deduce_tail.
  apply yields_bind; [now apply yields_token|].
  intros t ti' Et St. apply token_eq in Et. destruct Et as [-> Ht'].
  rewrite Hu in Ht'. injection Ht' as <-.
  unfold context_after.
  destruct (tok u);
    try (ystep; repeat split; reflexivity).
  - apply yields_bind; [now apply yields_extract_struct_type|].
    intros e ti' E' S'. keep_range ti' S'. ystep.
    repeat split; try reflexivity. discriminate.
  - apply yields_bind; [now apply yields_extract_struct_type|].
    intros e ti' E' S'. keep_range ti' S'. ystep.
    repeat split; try reflexivity. discriminate.
  - apply yields_bind; [now apply yields_extract_go_expr|].
    intros e ti' E' S'. keep_range ti' S'. ystep.
    repeat split; try reflexivity. discriminate.
Qed.

Lemma yields_deduce_back_context partial ti :
  in_range ti ->
  yields (fun a =>
            let u := index_Z (tokens ti) (token_index ti - 1) in
            fst (fst a) = context_after u /\ snd a = partial /\
            (context_after u = unknownContext -> snd (fst a) = ""))
    (deduce_back partial) ti.
Proof.
  intro R. unfold deduce_back. destruct ti as [ts i].
  unfold in_range in R. cbn [tokens token_index] in *.
  unfold yields. rewrite bind_go_back_at.
  destruct (i <=? 0) eqn:E0; cbn [negb].
  - rewrite index_Z_negative by zlia.
    eexists; eexists. split; [reflexivity|].
    split; [apply steady_refl; cbn; lia|]. repeat split; reflexivity.
  - destruct (index_Z_in_range ts (i - 1)) as [u Hu]; [zlia|].
    rewrite Hu.
    destruct (yields_deduce_tail_context partial (mk_iter ts (i - 1)) u)
      as (a & ti' & E & S & P).
    + unfold in_range. cbn [tokens token_index]. zlia.
    + exact Hu.
    + exists a, ti'. split; [exact E|]. split; [|exact P].
      destruct S as [S1 S2]. cbn [tokens token_index] in *.
      split; [exact S1 | cbn [token_index]; lia].
Qed.

(** X9. With an identifier under the cursor and the cursor inside it or at
    its end, the partial identifier is the identifier cut at the cursor, and
    the context is decided by the token before the identifier: select after
    a period, composite literal after a comma or an open brace, unknown with
    an empty expression after anything else and when there is no such
    token. *)
Theorem identifier_partial_and_context scans size cursor iter off t :
  new_token_iterator scans size cursor = (iter, off) ->
  index_Z (tokens iter) (token_index iter) = Some t ->
  tok t = IDENT ->
  off <= len_string (lit t) ->
  exists e,
    deduce_cursor_context_helper scans size cursor =
    Ret (context_after (index_Z (tokens iter) (token_index iter - 1)), e,
         substring 0 (Z.to_nat off) (lit t)) /\
    (context_after (index_Z (tokens iter) (token_index iter - 1)) =
       unknownContext -> e = "").
Proof.
  intros E Ht Hk Hl.
  destruct (deduce_on_tokens _ _ _ _ _ _ E Ht) as (R & O & ->).
  assert (deduce_from off iter =
          deduce_back (substring 0 (Z.to_nat off) (lit t)) iter) as D.
  { unfold deduce_from, bind at 1, token. rewrite Ht, Hk.
    change (Token_eqb IDENT STRING) with false.
    change (Token_eqb IDENT IDENT) with true. cbn [is_partial_token].
    unfold literal. rewrite Hk. change (IsLiteral IDENT) with true. cbv iota.
    destruct (len_string (lit t) <? off) eqn:L; [zlia|].
    rewrite substr_Z_in_range by lia. now rewrite Z.sub_0_r. }
  rewrite D.
  destruct (yields_deduce_back_context (substring 0 (Z.to_nat off) (lit t))
              iter R) as ([[ctx e] p] & ti' & -> & _ & P).
  cbn [fst snd] in P. destruct P as (-> & -> & Pe). exists e. auto.
Qed.

Lemma identifier_partial_and_context_witness :
  new_token_iterator (scans_of src_select) 10 9 =
    (mk_iter [mk_item IDENT "foo"; mk_item PERIOD ""; mk_item IDENT "Bar";
              mk_item PERIOD ""; mk_item IDENT "Ba"] 4, 1) /\
  exists e,
    deduce_cursor_context_helper (scans_of src_select) 10 9 =
    Ret (selectContext, e, "B") /\ (selectContext = unknownContext -> e = "").
Proof.
  split; [reflexivity|].
  apply (identifier_partial_and_context (scans_of src_select) 10 9
           (mk_iter [mk_item IDENT "foo"; mk_item PERIOD "";
                     mk_item IDENT "Bar"; mk_item PERIOD "";
                     mk_item IDENT "Ba"] 4) 1 (mk_item IDENT "Ba"));
    [reflexivity | reflexivity | reflexivity | vm_compute; discriminate].
Defined.

(** X10. With a token under the cursor that is neither a string, an
    identifier nor one of the five declaration keywords, the partial
    identifier is empty and the context is decided by that token itself:
    select after a period, composite literal after a comma or an open brace,
    unknown with an empty expression otherwise. *)
Theorem punctuation_context scans size cursor iter off t :
  new_token_iterator scans size cursor = (iter, off) ->
  index_Z (tokens iter) (token_index iter) = Some t ->
  Token_eqb (tok t) STRING = false ->
  is_partial_token (tok t) = false ->
  exists e,
    deduce_cursor_context_helper scans size cursor =
    Ret (context_after (Some t), e, "") /\
    (context_after (Some t) = unknownContext -> e = "").
Proof.
  intros E Ht Hs Hp.
  destruct (deduce_on_tokens _ _ _ _ _ _ E Ht) as (R & O & ->).
  assert (deduce_from off iter = deduce_tail "" iter) as D.
  { unfold deduce_from, bind at 1, token. now rewrite Ht, Hs, Hp. }
  rewrite D.
  destruct (yields_deduce_tail_context "" iter t R Ht)
    as ([[ctx e] p] & ti' & -> & _ & P).
  cbn [fst snd] in P. destruct P as (-> & -> & Pe). exists e. auto.
Qed.

Lemma punctuation_context_witness :
  exists e,
    deduce_cursor_context_helper (scans_of src_qualified) 10 10 =
    Ret (compositeLiteralContext, e, "") /\
    (compositeLiteralContext = unknownContext -> e = "").
Proof.
  apply (punctuation_context (scans_of src_qualified) 10 10
           (mk_iter [mk_item IDENT "pkg"; mk_item PERIOD "";
                     mk_item IDENT "Point"; mk_item LBRACE ""] 3) 1
           (mk_item LBRACE "")); reflexivity.
Defined.

(** ** The import context *)

Lemma bind_inv {A B} (m : M A) (f : A -> M B) ti r :
  bind m f ti = Ret r -> exists a ti1, m ti = Ret (a, ti1) /\ f a ti1 = Ret r.
Proof.
  unfold bind. destruct (m ti) as [[a ti1]|]; [eauto | discriminate].
Qed.

Lemma maybe_go_back_eq (c : bool) ti ok ti' :
  (if c then go_back else ret true) ti = Ret (ok, ti') ->
  tokens ti' = tokens ti /\ token_index ti' <= token_index ti.
Proof.
  destruct c.
  - intro H. apply go_back_eq in H. destruct H as [H [H1 | H1]];
      (split; [exact H | lia]).
  - intro H. injection H as _ <-. split; [reflexivity | lia].
Qed.

(** The loop answers with the import context only from the keyword. *)
Lemma import_loop_import fuel path off : forall ti e p ti',
  import_loop fuel path off ti = Ret ((importContext, e, p), ti') ->
  e = "" /\ substr_Z path 1 off = Some p /\
  tokens ti' = tokens ti /\ token_index ti' < token_index ti /\
  exists u, index_Z (tokens ti') (token_index ti') = Some u /\ tok u = IMPORT.
Proof.
  induction fuel as [|fuel IH]; intros ti e p ti' H; [discriminate|].
  cbn [import_loop] in H.
  apply bind_inv in H. destruct H as (ok1 & t1 & E1 & H).
  apply go_back_eq in E1. destruct E1 as [T1 I1].
  destruct ok1; cbn [negb] in H; [|discriminate].
  destruct I1 as [(? & _) | (_ & _ & I1)]; [discriminate|].
  apply bind_inv in H. destruct H as (itok & t2 & E2 & H).
  apply token_eq in E2. destruct E2 as [-> _].
  apply bind_inv in H. destruct H as (ok2 & t3 & E3 & H).
  apply maybe_go_back_eq in E3. destruct E3 as [T3 I3].
  destruct ok2; cbn [negb] in H; [|discriminate].
  apply bind_inv in H. destruct H as (t & t4 & E4 & H).
  apply token_eq in E4. destruct E4 as [-> _].
  destruct (Token_eqb (tok t) SEMICOLON).
  - apply bind_inv in H. destruct H as (ok5 & t5 & E5 & H).
    apply go_back_eq in E5. destruct E5 as [T5 I5].
    destruct ok5; cbn [negb] in H; [|discriminate].
    apply bind_inv in H. destruct H as (s & t6 & E6 & H).
    apply token_eq in E6. destruct E6 as [-> _].
    destruct (Token_eqb (tok s) STRING); cbn [negb] in H; [|discriminate].
    destruct (IH _ _ _ _ H) as (He & Hp & T & I & U).
    split; [exact He|]. split; [exact Hp|].
    split; [congruence|]. split; [|exact U].
    destruct I5 as [(? & _) | (_ & _ & I5)]; [discriminate | lia].
  - apply bind_inv in H. destruct H as (ok5 & t5 & E5 & H).
    apply maybe_go_back_eq in E5. destruct E5 as [T5 I5].
    destruct ok5; cbn [negb] in H; [|discriminate].
    apply bind_inv in H. destruct H as (u & t6 & E6 & H).
    apply token_eq in E6. destruct E6 as [-> Hu].
    destruct (Token_eqb (tok u) IMPORT) eqn:K; cbn [negb] in H;
      [|discriminate].
    destruct (substr_Z path 1 off) as [q|]; [|discriminate].
    injection H as <- <- <-.
    split; [reflexivity|]. split; [reflexivity|].
    split; [congruence|]. split; [lia|].
    exists u. split; [exact Hu | now apply Token_eqb_eq].
Qed.

(** X11. The helper answers with the import context only when the token
    under the cursor is a string with the cursor strictly inside it and the
    keyword [import] stands among the tokens before it; the expression is
    then empty and the partial path is the string from after its opening
    quote up to the cursor. *)
Theorem import_context_only_in_import scans size cursor e p :
  deduce_cursor_context_helper scans size cursor = Ret (importContext, e, p) ->
  exists iter off t,
    new_token_iterator scans size cursor = (iter, off) /\
    index_Z (tokens iter) (token_index iter) = Some t /\
    tok t = STRING /\ 1 <= off < len_string (lit t) /\
    e = "" /\ p = substring 1 (Z.to_nat (off - 1)) (lit t) /\
    exists i u, 0 <= i < token_index iter /\
                index_Z (tokens iter) i = Some u /\ tok u = IMPORT.
Proof.
  intro H. unfold deduce_cursor_context_helper in H.
  destruct (new_token_iterator scans size cursor) as [iter off] eqn:E.
  destruct (Z.of_nat (List.length (tokens iter)) =? 0) eqn:L; [discriminate|].
  assert (tokens iter <> []) as N.
  { intro N. rewrite N in L. discriminate. }
  destruct (new_token_iterator_in_range _ _ _ _ _ E N) as (R & O & _).
  destruct (index_Z_in_range _ _ R) as [t Ht].
  exists iter, off, t. split; [reflexivity|]. split; [exact Ht|].
  destruct (deduce_from off iter) as [[a ti']|] eqn:D; [|discriminate].
  injection H as H. subst a.
  unfold deduce_from, bind at 1, token in D. rewrite Ht in D.
  destruct (Token_eqb (tok t) STRING) eqn:K.
  - apply Token_eqb_eq in K. unfold literal in D. rewrite K in D.
    change (IsLiteral STRING) with true in D. cbv iota in D.
    destruct (len_string (lit t) <=? off) eqn:Lo; [discriminate|].
    unfold with_fuel in D.
    destruct (import_loop_import _ _ _ _ _ _ _ D) as (He & Hp & T & I & U).
    rewrite substr_Z_in_range in Hp by zlia. injection Hp as <-.
    split; [exact K|]. split; [zlia|]. split; [exact He|].
    split; [reflexivity|].
    destruct U as (u & Hu & Ku). exists (token_index ti'), u.
    rewrite T in Hu. pose proof (index_Z_Some _ _ _ Hu). repeat split; auto.
    lia.
  - exfalso.
    assert (yields (fun a => fst (fst a) <> importContext)
              (deduce_from off) iter) as Y.
    { unfold deduce_from. apply yields_bind; [now apply yields_token|].
      intros t0 ti0 Et St. apply token_eq in Et. destruct Et as [-> Ht0].
      rewrite Ht in Ht0. injection Ht0 as <-. rewrite K.
      destruct (is_partial_token (tok t)).
      - destruct (Token_eqb (tok t) IDENT).
        + destruct (len_string (literal t) <? off) eqn:Lo.
          * apply yields_ret; [assumption | discriminate].
          * rewrite substr_Z_in_range by zlia.
            eapply yields_weaken; [|now apply yields_deduce_back_context].
            intros a0 [P _]. cbv zeta in P. rewrite P.
            apply context_after_not_import.
        + eapply yields_weaken; [|now apply yields_deduce_back_context].
          intros a0 [P _]. cbv zeta in P. rewrite P.
          apply context_after_not_import.
      - destruct (yields_deduce_tail_context "" iter t R Ht)
          as (a0 & ti0 & E0 & S0 & P0 & _).
        exists a0, ti0. split; [exact E0|]. split; [exact S0|].
        rewrite P0. apply context_after_not_import. }
    destruct Y as (a0 & ti0 & E0 & _ & P0).
    unfold deduce_from, bind at 1, token in E0. rewrite Ht, K in E0.
    rewrite E0 in D. injection D as D1 _. subst a0. now apply P0.
Qed.

Lemma import_context_only_in_import_witness :
  exists iter off t,
    new_token_iterator (scans_of src_import_closed) 14 13 = (iter, off) /\
    index_Z (tokens iter) (token_index iter) = Some t /\
    tok t = STRING /\ 1 <= off < len_string (lit t) /\
    "" = "" /\ "foo/b" = substring 1 (Z.to_nat (off - 1)) (lit t) /\
    exists i u, 0 <= i < token_index iter /\
                index_Z (tokens iter) i = Some u /\ tok u = IMPORT.
Proof.
  apply (import_context_only_in_import (scans_of src_import_closed) 14 13
           "" "foo/b"). reflexivity.
Defined.

Lemma bind_ret {A B} (a : A) (f : A -> M B) ti : bind (ret a) f ti = f a ti.
Proof. reflexivity. Qed.

(** One step back on a token sequence with a known front. *)
Ltac back_step :=
  rewrite bind_go_back_at;
  match goal with
  | |- context [?x <=? 0] => destruct (x <=? 0) eqn:?; [exfalso; zlia|]
  end;
  cbn [negb].

Ltac token_step F :=
  match goal with
  | |- context [bind token _ (mk_iter _ ?i)] =>
      match type of F with
      | index_Z _ ?j = _ =>
          tryif constr_eq i j then idtac else replace i with j by lia
      end
  end;
  rewrite (bind_token_at _ _ _ _ F);
  cbn [tok Token_eqb Token_code Z.eqb Pos.eqb orb andb negb].

Lemma import_line_walk pre kw mid path off :
  import_middle mid = true -> 1 <= off < len_string path ->
  exists ti',
    deduce_from off
      (mk_iter (pre ++ [mk_item IMPORT kw] ++ mid ++ [mk_item STRING path])
         (Z.of_nat (List.length pre) + 1 + Z.of_nat (List.length mid))) =
    Ret ((importContext, "", substring 1 (Z.to_nat (off - 1)) path), ti').
Proof.
  intros Hm Ho.
  assert (substr_Z path 1 off =
          Some (substring 1 (Z.to_nat (off - 1)) path)) as Hp
    by (apply substr_Z_in_range; lia).
  assert ((len_string path <=? off) = false) as Hlen by (apply Z.leb_gt; lia).
  assert (forall sfx k, 0 <= k ->
            index_Z (pre ++ sfx) (Z.of_nat (List.length pre) + k) =
            index_Z sfx k) as F
    by (intros sfx k Hk; now apply index_Z_app_r).
  destruct mid as [|a [|b [|c mid]]]; cbn [import_middle] in Hm;
    try discriminate; cbn [List.length Z.of_nat Pos.of_succ_nat Pos.succ];
    match goal with
    | |- context [mk_iter (pre ++ ?sfx)] =>
        set (T := pre ++ sfx); set (L := Z.of_nat (List.length pre));
        assert (0 <= L) as HL by (unfold L; lia);
        assert (index_Z T L = Some (mk_item IMPORT kw)) as F0
          by (rewrite <- (Z.add_0_r L); unfold T, L; rewrite F by lia;
              reflexivity)
    end.
  - assert (index_Z T (L + 1) = Some (mk_item STRING path)) as F1
      by (unfold T, L; rewrite F by lia; reflexivity).
    unfold deduce_from.
    token_step F1. unfold literal. cbn [tok lit IsLiteral Token_code Z.ltb
      Z.compare Pos.compare Pos.compare_cont andb]. rewrite Hlen.
    unfold with_fuel. cbn [import_loop tokens].
    back_step. token_step F0. rewrite bind_ret. cbn [negb].
    token_step F0. rewrite bind_ret. cbn [negb].
    token_step F0. rewrite Hp. eexists. reflexivity.
  - assert (index_Z T (L + 1) = Some a) as F1
      by (unfold T, L; rewrite F by lia; reflexivity).
    assert (index_Z T (L + 2) = Some (mk_item STRING path)) as F2
      by (unfold T, L; rewrite F by lia; reflexivity).
    unfold deduce_from.
    token_step F2. unfold literal. cbn [tok lit IsLiteral Token_code Z.ltb
      Z.compare Pos.compare Pos.compare_cont andb]. rewrite Hlen.
    unfold with_fuel. cbn [import_loop tokens].
    back_step. token_step F1.
    destruct (Token_eqb (tok a) LPAREN) eqn:K1.
    + apply Token_eqb_eq in K1. rewrite K1.
      cbn [Token_eqb Token_code Z.eqb Pos.eqb orb]. rewrite bind_ret. cbn [negb].
      cbn [negb]. token_step F1. rewrite K1.
      cbn [Token_eqb Token_code Z.eqb Pos.eqb orb].
      back_step. token_step F0. rewrite Hp. eexists. reflexivity.
    + cbn [orb] in Hm. rewrite Hm. back_step. token_step F0.
      rewrite bind_ret. cbn [negb]. token_step F0.
      rewrite Hp. eexists. reflexivity.
  - assert (index_Z T (L + 1) = Some a) as F1
      by (unfold T, L; rewrite F by lia; reflexivity).
    assert (index_Z T (L + 2) = Some b) as F2
      by (unfold T, L; rewrite F by lia; reflexivity).
    assert (index_Z T (L + 3) = Some (mk_item STRING path)) as F3
      by (unfold T, L; rewrite F by lia; reflexivity).
    apply andb_true_iff in Hm. destruct Hm as [K1 K2].
    apply Token_eqb_eq in K1.
    unfold deduce_from.
    token_step F3. unfold literal. cbn [tok lit IsLiteral Token_code Z.ltb
      Z.compare Pos.compare Pos.compare_cont andb]. rewrite Hlen.
    unfold with_fuel. cbn [import_loop tokens].
    back_step. token_step F2. rewrite K2.
    back_step. token_step F1. rewrite K1.
    cbn [Token_eqb Token_code Z.eqb Pos.eqb orb].
    back_step. token_step F0. rewrite Hp. eexists. reflexivity.
Qed.

(** X12. When the tokens before the cursor end with the keyword [import],
    then possibly the parenthesis of a group, then possibly an alias or the
    period of a dot import, then a string with the cursor strictly inside it,
    the answer is the import context with the path typed so far, whatever
    stands before the keyword. *)
Theorem import_first_line scans size cursor pre kw mid path idx off :
  new_token_iterator scans size cursor =
    (mk_iter (pre ++ [mk_item IMPORT kw] ++ mid ++ [mk_item STRING path]) idx,
     off) ->
  import_middle mid = true -> off < len_string path ->
  deduce_cursor_context_helper scans size cursor =
  Ret (importContext, "", substring 1 (Z.to_nat (off - 1)) path).
Proof.
  intros E Hm Ho.
  assert (tokens (mk_iter (pre ++ [mk_item IMPORT kw] ++ mid ++
                           [mk_item STRING path]) idx) <> []) as N.
  { cbn [tokens]. destruct pre; discriminate. }
  destruct (new_token_iterator_in_range _ _ _ _ _ E N) as (R & O & I).
  cbn [tokens token_index] in I.
  assert (idx = Z.of_nat (List.length pre) + 1 + Z.of_nat (List.length mid))
    as ->.
  { rewrite I, !length_app. cbn [List.length]. lia. }
  destruct (index_Z_in_range _ _ R) as [t Ht].
  destruct (deduce_on_tokens _ _ _ _ _ _ E Ht) as (_ & _ & ->).
  destruct (import_line_walk pre kw mid path off Hm (conj O Ho)) as [ti' ->].
  reflexivity.
Qed.

Lemma import_first_line_witness :
  deduce_cursor_context_helper
    (scans_of ("x; import (y " ++ quoted_open "ab")%string) 16 15 =
  Ret (importContext, "", "a").
Proof.
  apply (import_first_line
           (scans_of ("x; import (y " ++ quoted_open "ab")%string)
           16 15 [mk_item IDENT "x"; mk_item SEMICOLON ";"] "import"
           [mk_item LPAREN ""; mk_item IDENT "y"] (quoted_open "ab") 5 2);
    reflexivity.
Defined.

Lemma nth_group_lines post : forall paths (k : nat),
  (k < List.length paths)%nat ->
  (exists s, nth_error (group_lines paths ++ post) (2 * k) =
             Some (mk_item STRING s)) /\
  nth_error (group_lines paths ++ post) (2 * k + 1) =
  Some (mk_item SEMICOLON (String GoScanner.newline "")).
Proof.
  induction paths as [|s paths IH]; intros [|k] H; cbn [List.length] in H;
    try lia.
  - split; [exists s|]; reflexivity.
  - destruct (IH k ltac:(lia)) as [H1 H2].
    replace (2 * S k)%nat with (S (S (2 * k))) by lia.
    replace (S (S (2 * k)) + 1)%nat with (S (S (2 * k + 1))) by lia.
    cbn [group_lines app nth_error]. split; assumption.
Qed.

Lemma length_group_lines paths :
  List.length (group_lines paths) = (2 * List.length paths)%nat.
Proof.
  induction paths as [|x paths IH]; [reflexivity|].
  cbn [group_lines List.length]. rewrite IH. lia.
Qed.

Section Group.

Variable pre : list token_item.
Variables kw path q : string.
Variable paths : list string.
Variable off : Z.

Let T :=
  pre ++ [mk_item IMPORT kw; mk_item LPAREN ""] ++ group_lines paths
      ++ [mk_item STRING q].
Let L := Z.of_nat (List.length pre).

Hypothesis inside : 1 <= off <= len_string path.

Lemma group_front :
  index_Z T L = Some (mk_item IMPORT kw) /\
  index_Z T (L + 1) = Some (mk_item LPAREN "").
Proof.
  unfold T, L. rewrite <- (Z.add_0_r (Z.of_nat (List.length pre))) at 1.
  rewrite !index_Z_app_r by lia. split; reflexivity.
Qed.

Lemma group_token (k : nat) :
  (k <= List.length paths)%nat ->
  exists s, index_Z T (L + 2 + 2 * Z.of_nat k) = Some (mk_item STRING s).
Proof.
  intro H. unfold T, L. rewrite <- !Z.add_assoc, index_Z_app_r by lia.
  unfold index_Z. destruct (2 + 2 * Z.of_nat k <? 0) eqn:E; [zlia|].
  replace (Z.to_nat (2 + 2 * Z.of_nat k)) with (S (S (2 * k))) by lia.
  cbn [app nth_error].
  destruct (Nat.eq_dec k (List.length paths)) as [->|Hk].
  - exists q. rewrite nth_error_app2 by (rewrite length_group_lines; lia).
    rewrite length_group_lines, Nat.sub_diag. reflexivity.
  - apply (nth_group_lines [mk_item STRING q] paths k). lia.
Qed.

Lemma group_semicolon (k : nat) :
  (k < List.length paths)%nat ->
  index_Z T (L + 2 + 2 * Z.of_nat k + 1) =
  Some (mk_item SEMICOLON (String GoScanner.newline "")).
Proof.
  intro H. unfold T, L. rewrite <- !Z.add_assoc, index_Z_app_r by lia.
  unfold index_Z. destruct (2 + (2 * Z.of_nat k + 1) <? 0) eqn:E; [zlia|].
  replace (Z.to_nat (2 + (2 * Z.of_nat k + 1))) with (S (S (2 * k + 1)))
    by lia.
  cbn [app nth_error].
  apply (nth_group_lines [mk_item STRING q] paths k H).
Qed.

(** From the string of any line of the group the loop walks up to the
    keyword. *)
Lemma group_walk : forall (k : nat) fuel,
  (k <= List.length paths)%nat ->
  (List.length pre + 2 + 2 * k < fuel)%nat ->
  exists ti',
    import_loop fuel path off (mk_iter T (L + 2 + 2 * Z.of_nat k)) =
    Ret ((importContext, "", substring 1 (Z.to_nat (off - 1)) path), ti').
Proof.
  assert (0 <= L) as HL by (unfold L; lia).
  destruct group_front as [F0 F1].
  induction k as [|k IH]; intros fuel Hk F.
  - destruct fuel as [|fuel]; [lia|]. cbn [import_loop].
    back_step. token_step F1. rewrite bind_ret. cbn [negb].
    token_step F1. back_step. token_step F0.
    rewrite substr_Z_in_range by lia. eexists. reflexivity.
  - destruct fuel as [|fuel]; [lia|].
    pose proof (group_semicolon k ltac:(lia)) as Fs.
    destruct (group_token k ltac:(lia)) as [s Ft].
    cbn [import_loop]. back_step. token_step Fs.
    rewrite bind_ret. cbn [negb]. token_step Fs.
    back_step. token_step Ft. apply IH; lia.
Qed.

End Group.

(** X13. On a line of an import group, after the keyword, the parenthesis
    and any number of earlier lines that hold a path alone, a string with the
    cursor strictly inside it gives the import context with the path typed so
    far. *)
Theorem import_group_line scans size cursor pre kw paths path idx off :
  new_token_iterator scans size cursor =
    (mk_iter (pre ++ [mk_item IMPORT kw; mk_item LPAREN ""]
                  ++ group_lines paths ++ [mk_item STRING path]) idx, off) ->
  off < len_string path ->
  deduce_cursor_context_helper scans size cursor =
  Ret (importContext, "", substring 1 (Z.to_nat (off - 1)) path).
Proof.
  intros E Ho.
  set (T := pre ++ [mk_item IMPORT kw; mk_item LPAREN ""]
                ++ group_lines paths ++ [mk_item STRING path]) in *.
  assert (tokens (mk_iter T idx) <> []) as N.
  { cbn [tokens]. unfold T. destruct pre; discriminate. }
  destruct (new_token_iterator_in_range _ _ _ _ _ E N) as (R & O & I).
  cbn [tokens token_index] in I.
  set (n := List.length paths).
  assert (Z.of_nat (List.length T) =
          Z.of_nat (List.length pre) + 2 + 2 * Z.of_nat n + 1) as LT.
  { unfold T, n. rewrite !length_app, length_group_lines.
    cbn [List.length]. lia. }
  assert (idx = Z.of_nat (List.length pre) + 2 + 2 * Z.of_nat n) as ->
    by lia.
  destruct (group_token pre kw path paths n (Nat.le_refl _)) as [s Ht].
  fold T in Ht.
  assert (s = path) as ->.
  { destruct (index_Z_in_range _ _ R) as [t' Ht'].
    cbn [tokens token_index] in Ht'.
    revert Ht. unfold T, n.
    rewrite <- !Z.add_assoc, index_Z_app_r by lia.
    unfold index_Z. destruct (2 + 2 * Z.of_nat (List.length paths) <? 0);
      [discriminate|].
    replace (Z.to_nat (2 + 2 * Z.of_nat (List.length paths)))
      with (S (S (2 * List.length paths))) by lia.
    cbn [app nth_error].
    rewrite nth_error_app2 by (rewrite length_group_lines; lia).
    rewrite length_group_lines, Nat.sub_diag. cbn [nth_error].
    intro H. now injection H. }
  destruct (deduce_on_tokens _ _ _ _ _ _ E Ht) as (_ & _ & ->).
  unfold deduce_from. rewrite (bind_token_at _ _ _ _ Ht).
  cbn [tok Token_eqb Token_code Z.eqb Pos.eqb]. unfold literal.
  cbn [tok lit IsLiteral Token_code Z.ltb Z.compare Pos.compare
       Pos.compare_cont andb].
  destruct (len_string path <=? off) eqn:Hlen; [zlia|].
  unfold with_fuel. cbn [tokens].
  destruct (group_walk pre kw path path paths off (conj O (Z.lt_le_incl _ _ Ho))
              n (S (List.length T)) (Nat.le_refl _)) as [ti' E'].
  { apply Nat2Z.inj_lt. lia. }
  unfold T in *. now rewrite E'.
Qed.

Lemma import_group_line_witness :
  new_token_iterator (scans_of src_group) 17 15 =
    (mk_iter ([] ++ [mk_item IMPORT "import"; mk_item LPAREN ""]
                 ++ group_lines [quoted "a"] ++ [mk_item STRING (quoted "bc")])
       4, 2) /\
  deduce_cursor_context_helper (scans_of src_group) 17 15 =
  Ret (importContext, "", "b").
Proof.
  split; [reflexivity|].
  apply (import_group_line (scans_of src_group) 17 15 [] "import"
           [quoted "a"] (quoted "bc") 4 2); reflexivity.
Defined.

(** ** What the constructor keeps *)

Lemma collected_split scans cursorPos :
  exists rest,
    scans = collected scans cursorPos ++ rest /\
    match rest with
    | [] => True
    | r :: _ => stops_loop cursorPos r
    end.
Proof.
  induction scans as [|r scans IH]; cbn [collected].
  - exists []. split; [reflexivity | exact I].
  - destruct (Token_eqb (s_tok r) EOF || (cursorPos <=? s_pos r)) eqn:E.
    + exists (r :: scans). split; [reflexivity|].
      apply orb_true_iff in E. destruct E as [E | E]; [left | right].
      * now apply Token_eqb_eq.
      * zlia.
    + destruct IH as (rest & H1 & H2). exists rest.
      split; [cbn [app]; now rewrite <- H1 | exact H2].
Qed.

(** X14. The tokens of the iterator are those of the longest front of the
    scans in which every scan starts before the cursor position and none is
    the end of the file: the loop stops at the first scan that is not so, or
    when the scans run out. *)
Theorem new_token_iterator_longest_front scans size cursor :
  exists kept rest,
    scans = kept ++ rest /\
    tokens (fst (new_token_iterator scans size cursor)) = map item_of kept /\
    Forall (fun r => s_pos r < file_Pos fset_Base size cursor /\
                     s_tok r <> EOF) kept /\
    match rest with
    | [] => True
    | r :: _ => stops_loop (file_Pos fset_Base size cursor) r
    end.
Proof.
  destruct (collected_split scans (file_Pos fset_Base size cursor))
    as (rest & H1 & H2).
  exists (collected scans (file_Pos fset_Base size cursor)), rest.
  split; [exact H1|]. split; [|split; [apply collected_before | exact H2]].
  now rewrite new_token_iterator_eq.
Qed.

Lemma collected_mono scans cp1 cp2 :
  cp1 <= cp2 ->
  exists more, collected scans cp2 = collected scans cp1 ++ more.
Proof.
  intro H. induction scans as [|r scans IH]; cbn [collected].
  - exists []. reflexivity.
  - destruct (Token_eqb (s_tok r) EOF); cbn [orb].
    + exists []. reflexivity.
    + destruct (cp1 <=? s_pos r) eqn:E1.
      * eexists. reflexivity.
      * destruct (cp2 <=? s_pos r) eqn:E2; [zlia|].
        destruct IH as [more ->]. exists more. reflexivity.
Qed.

(** X15. Moving the cursor to the right inside the source only adds tokens
    at the end of the iterator. *)
Theorem new_token_iterator_cursor_monotone scans size c1 c2 :
  0 <= c1 <= c2 -> c2 <= size ->
  exists more,
    tokens (fst (new_token_iterator scans size c2)) =
    tokens (fst (new_token_iterator scans size c1)) ++ more.
Proof.
  intros H1 H2. rewrite !new_token_iterator_eq. cbn [fst tokens].
  rewrite !file_Pos_in_file by lia.
  destruct (collected_mono scans (fset_Base + c1) (fset_Base + c2))
    as [more ->]; [lia|].
  exists (map item_of more). apply map_app.
Qed.

Lemma new_token_iterator_cursor_monotone_witness :
  exists more,
    tokens (fst (new_token_iterator (scans_of src_select) 10 10)) =
    tokens (fst (new_token_iterator (scans_of src_select) 10 5)) ++ more.
Proof.
  apply (new_token_iterator_cursor_monotone (scans_of src_select) 10 5 10);
    lia.
Defined.

(** X16. With the cursor at the start of the source, or before it, no token
    is collected and the answer is the unknown context with two empty
    strings, the scans starting at valid positions. *)
Theorem cursor_at_start scans size cursor :
  0 <= size -> cursor <= 0 ->
  Forall (fun r => fset_Base <= s_pos r) scans ->
  tokens (fst (new_token_iterator scans size cursor)) = [] /\
  deduce_cursor_context_helper scans size cursor = Ret (unknownContext, "", "").
Proof.
  intros Hs Hc F.
  assert (file_Pos fset_Base size cursor = fset_Base) as P.
  { unfold file_Pos, fixOffset.
    destruct (cursor <? 0) eqn:E1; [lia|].
    destruct (size <? cursor) eqn:E2; zlia. }
  assert (collected scans fset_Base = []) as C.
  { destruct F as [|r scans Hr F]; [reflexivity|]. cbn [collected].
    destruct (fset_Base <=? s_pos r) eqn:E; [|zlia].
    now rewrite orb_true_r. }
  unfold deduce_cursor_context_helper.
  rewrite new_token_iterator_eq, P, C. cbn. split; reflexivity.
Qed.

Lemma cursor_at_start_witness :
  tokens (fst (new_token_iterator (scans_of src_select) 10 0)) = [] /\
  deduce_cursor_context_helper (scans_of src_select) 10 0 =
  Ret (unknownContext, "", "").
Proof.
  apply (cursor_at_start (scans_of src_select) 10 0); [lia | lia |].
  repeat constructor; vm_compute; discriminate.
Defined.

(** ** The expression extractor over a bracketed part *)

(** Reading for one kind of bracket follows the reading for all kinds. *)
Lemma lefts_run_nest_run k : forall ts i ms ms' st,
  nest_run ts i ms = Some ms' ->
  lefts_run (opener k) (closer k) ts i (opens_of k ms ++ st) =
  opens_of k ms' ++ st.
Proof.
  induction ts as [|t ts IH]; intros i ms ms' st H; cbn [nest_run] in H.
  - injection H as <-. reflexivity.
  - destruct (nest_step i ms t) as [ms1|] eqn:E; [|discriminate].
    cbn [lefts_run]. rewrite <- (IH _ _ _ st H). f_equal.
    unfold nest_step in E. unfold lefts_step.
    destruct (role (tok t)) as [k'|k'|] eqn:Ro.
    + apply role_Opens in Ro. rewrite Ro.
      rewrite eqb_opener_closer, eqb_opener_opener.
      injection E as <-. cbn [opens_of].
      now destruct (bracket_eqb k' k).
    + apply role_Closes in Ro. rewrite Ro.
      rewrite eqb_closer_closer, eqb_closer_opener.
      destruct ms as [|[k'' j] ms]; [discriminate|].
      destruct (bracket_eqb k'' k') eqn:K; [|discriminate].
      injection E as <-. apply bracket_eqb_eq in K. subst k''.
      cbn [opens_of]. now destruct (bracket_eqb k' k).
    + destruct (role_NoBracket _ k Ro) as [-> ->].
      injection E as <-. reflexivity.
Qed.

Lemma expr_round_closer k : expr_round (closer k) PERIOD = SkipPair.
Proof. now destruct k. Qed.

Lemma expr_round_before_opener k : expr_round IDENT (opener k) = Next.
Proof. now destruct k. Qed.

(** Proper nesting does not depend on the index the reading starts at. *)
Lemma nest_run_shape : forall ts i i' ms ms',
  map fst ms = map fst ms' ->
  match nest_run ts i ms, nest_run ts i' ms' with
  | Some r, Some r' => map fst r = map fst r'
  | None, None => True
  | _, _ => False
  end.
Proof.
  induction ts as [|t ts IH]; intros i i' ms ms' H; cbn [nest_run].
  - exact H.
  - unfold nest_step. destruct (role (tok t)) as [k|k|].
    + apply IH. cbn [map fst]. now rewrite H.
    + destruct ms as [|[k1 j1] ms], ms' as [|[k2 j2] ms']; try discriminate.
      * exact I.
      * cbn [map fst] in H. injection H as -> H.
        destruct (bracket_eqb k2 k); [now apply IH | exact I].
    + now apply IH.
Qed.

Lemma properly_nested_anywhere ts i :
  properly_nested ts = true -> nest_run ts i [] = Some [].
Proof.
  unfold properly_nested. intro H.
  pose proof (nest_run_shape ts 0 i [] [] eq_refl) as Q.
  destruct (nest_run ts 0 []) as [[|e r]|]; try discriminate.
  destruct (nest_run ts i []) as [r'|]; [|contradiction].
  destruct r'; [reflexivity | discriminate].
Qed.

Lemma extract_go_expr_loop_S fuel orig prev :
  extract_go_expr_loop (S fuel) orig prev =
  (ok <- go_back ;;
   if negb ok then tokens_text 0 orig
   else
     t <- token ;;
     match expr_round (tok t) prev with
     | Break => i <- get_index ;; tokens_text (i + 1) orig
     | Next => extract_go_expr_loop fuel orig (tok t)
     | SkipPair =>
         _ <- skip_to_balanced_pair ;;
         t' <- token ;;
         extract_go_expr_loop fuel orig (tok t')
     end).
Proof. reflexivity. Qed.

(** At the front of the expression: an identifier to the right, and to the
    left nothing or a token other than a period. *)
Lemma front_stop pre sfx orig fuel :
  ends_with_period pre = false ->
  Z.of_nat (List.length pre) <= orig <= Z.of_nat (List.length (pre ++ sfx)) ->
  exists ti',
    extract_go_expr_loop (S fuel) orig IDENT
      (mk_iter (pre ++ sfx) (Z.of_nat (List.length pre))) =
    Ret (token_items_to_string
           (firstn (Z.to_nat (orig - Z.of_nat (List.length pre))) sfx), ti').
Proof.
  intros stop O. cbn [extract_go_expr_loop]. rewrite bind_go_back_at.
  destruct pre as [|p0 pre'] eqn:Epre.
  - cbn [List.length Z.of_nat app] in *. change (0 <=? 0) with true.
    cbn [negb]. unfold tokens_text. cbn [tokens].
    rewrite slice_Z_in_range by lia. eexists. reflexivity.
  - rewrite <- Epre in *.
    assert (pre <> []) as N by (rewrite Epre; discriminate).
    assert (0 < Z.of_nat (List.length pre)) as HL
      by (rewrite Epre; cbn [List.length]; lia).
    destruct (Z.of_nat (List.length pre) <=? 0) eqn:E0; [zlia|]. cbn [negb].
    destruct (ends_with_period_last _ stop N) as (u & Hu & Ku).
    apply (index_Z_app_l _ sfx) in Hu.
    rewrite (bind_token_at _ _ _ _ Hu), (expr_round_stop _ Ku).
    unfold bind, get_index, tokens_text. cbn [tokens token_index].
    replace (Z.of_nat (List.length pre) - 1 + 1)
      with (Z.of_nat (List.length pre)) by lia.
    rewrite slice_Z_in_range by zlia.
    rewrite Nat2Z.id, skipn_app_length. eexists. reflexivity.
Qed.

(** X17. Started on the period after [f(...)], [f[...]] or [f{...}], the
    brackets holding properly nested tokens and [f] standing at the front of
    the tokens or after a token other than a period, the expression extractor
    returns the text from [f] to the closing bracket: the bracketed part is
    stepped over as a whole. *)
Theorem extract_go_expr_bracketed pre f k args post :
  properly_nested args = true -> ends_with_period pre = false ->
  exists ti',
    extract_go_expr
      (mk_iter (pre ++ [mk_item IDENT f; mk_item (opener k) ""] ++ args
                    ++ [mk_item (closer k) ""; mk_item PERIOD ""] ++ post)
         (Z.of_nat (List.length pre) + 3 + Z.of_nat (List.length args))) =
    Ret ((f ++ Token_String (opener k) ++ token_items_to_string args
            ++ Token_String (closer k))%string, ti').
Proof.
  intros PN stop.
  set (sfx := [mk_item IDENT f; mk_item (opener k) ""] ++ args
                ++ [mk_item (closer k) ""; mk_item PERIOD ""] ++ post).
  set (T := pre ++ sfx). set (L := Z.of_nat (List.length pre)).
  set (n := List.length args).
  assert (0 <= L) as HL by (unfold L; lia).
  assert (forall j, 0 <= j -> index_Z T (L + j) = index_Z sfx j) as F
    by (intros j Hj; unfold T, L; now apply index_Z_app_r).
  assert (Z.of_nat (List.length T) =
          L + Z.of_nat n + 4 + Z.of_nat (List.length post)) as LT.
  { unfold T, sfx, L, n. rewrite ?length_app. cbn [List.length app].
    rewrite ?length_app. cbn [List.length]. lia. }
  assert (index_Z T L = Some (mk_item IDENT f)) as F0.
  { rewrite <- (Z.add_0_r L), F by lia. reflexivity. }
  assert (index_Z T (L + 1) = Some (mk_item (opener k) "")) as F1.
  { rewrite F by lia. reflexivity. }
  assert (forall j x, nth_error [mk_item (closer k) ""; mk_item PERIOD ""] j
                      = Some x ->
            index_Z T (L + 2 + Z.of_nat n + Z.of_nat j) = Some x) as Fc.
  { intros j x Hx.
    replace (L + 2 + Z.of_nat n + Z.of_nat j)
      with (L + (Z.of_nat (List.length
                             [mk_item IDENT f; mk_item (opener k) ""])
                 + (Z.of_nat (List.length args) + Z.of_nat j)))
      by (cbn [List.length]; unfold n; lia).
    rewrite F by lia. unfold sfx. rewrite !index_Z_app_r by lia.
    apply index_Z_app_l. unfold index_Z.
    destruct (Z.of_nat j <? 0) eqn:E; [zlia|]. now rewrite Nat2Z.id. }
  pose proof (Fc 0%nat _ eq_refl) as F2. pose proof (Fc 1%nat _ eq_refl) as F3.
  replace (L + 2 + Z.of_nat n + Z.of_nat 0) with (L + 2 + Z.of_nat n)
    in F2 by lia.
  replace (L + 2 + Z.of_nat n + Z.of_nat 1) with (L + 3 + Z.of_nat n)
    in F3 by lia.
  assert (skip_to_balanced_pair (mk_iter T (L + 2 + Z.of_nat n)) =
          Ret (true, mk_iter T (L + 1))) as Sk.
  { unfold skip_to_balanced_pair, bind at 1. rewrite (token_at _ _ _ F2).
    cbn [tok]. rewrite bracket_pairs_map_closer.
    rewrite (skip_to_left_lefts (opener k) (closer k)
               (mk_iter T (L + 2 + Z.of_nat n)) _ F2)
      by (cbn [tok]; apply eqb_closer_opener).
    cbn [tokens token_index].
    assert (lefts_before (opener k) (closer k) T (L + 2 + Z.of_nat n) =
            (L + 1) :: lefts_before (opener k) (closer k) pre L) as ->;
      [|reflexivity].
    unfold lefts_before.
    replace (Z.to_nat (L + 2 + Z.of_nat n))
      with (List.length pre + (2 + n))%nat by (unfold L; lia).
    unfold T. rewrite firstn_app_2.
    replace (Z.to_nat L) with (List.length pre) by (unfold L; lia).
    rewrite firstn_all. unfold sfx, n. cbn [app Nat.add firstn].
    rewrite firstn_app, Nat.sub_diag, firstn_all. cbn [firstn].
    rewrite app_nil_r.
    rewrite lefts_run_app. cbn [lefts_run]. unfold lefts_step. cbn [tok].
    assert (Token_eqb IDENT (closer k) = false) as -> by now destruct k.
    assert (Token_eqb IDENT (opener k) = false) as -> by now destruct k.
    rewrite eqb_opener_closer, eqb_opener_opener.
    assert (bracket_eqb k k = true) as -> by now destruct k.
    fold L. replace (0 + L + 1) with (L + 1) by lia.
    apply (lefts_run_nest_run k args (L + 1 + 1) [] []
             ((L + 1) :: lefts_run (opener k) (closer k) pre 0 [])).
    now apply properly_nested_anywhere. }
  assert (exists m, List.length T = S (S m)) as [m Hm].
  { exists (List.length T - 2)%nat. lia. }
  unfold extract_go_expr, bind at 1, get_index. cbn [token_index].
  rewrite (bind_token_at _ _ _ _ F3). unfold with_fuel. cbn [tokens tok].
  cbn [extract_go_expr_loop].
  back_step. token_step F2. rewrite expr_round_closer.
  unfold bind at 1. rewrite Sk.
  rewrite (bind_token_at _ _ _ _ F1). cbn [tok]. rewrite Hm.
  rewrite extract_go_expr_loop_S.
  back_step. token_step F0. rewrite expr_round_before_opener.
  destruct (front_stop pre sfx (L + 3 + Z.of_nat n) m stop) as [ti' E].
  { fold L T. lia. }
  fold L T in E. exists ti'. rewrite E. f_equal. f_equal.
  replace (Z.to_nat (L + 3 + Z.of_nat n - L)) with (S (S (S n))) by lia.
  unfold sfx. rewrite firstn_app.
  rewrite (firstn_all2 [mk_item IDENT f; mk_item (opener k) ""])
    by (cbn [List.length]; lia).
  cbn [List.length]. replace (S (S (S n)) - 2)%nat with (S n) by lia.
  rewrite firstn_app. rewrite firstn_all2 by (fold n; lia). fold n.
  replace (S n - n)%nat with 1%nat by lia.
  change (firstn 1 ([mk_item (closer k) ""; mk_item PERIOD ""] ++ post))
    with [mk_item (closer k) ""].
  rewrite !text_app. cbn [token_items_to_string].
  unfold literal. cbn [tok lit].
  assert (IsLiteral (opener k) = false) as -> by now destruct k.
  assert (IsLiteral (closer k) = false) as -> by now destruct k.
  change (IsLiteral IDENT) with true. cbv iota.
  rewrite !append_empty_r. now rewrite append_assoc.
Qed.

Lemma extract_go_expr_bracketed_witness :
  exists ti',
    extract_go_expr
      (mk_iter ([mk_item IDENT "x"; mk_item ASSIGN ""]
                  ++ [mk_item IDENT "f"; mk_item (opener Paren) ""]
                  ++ [mk_item IDENT "a"; mk_item LBRACK ""; mk_item INT "1";
                      mk_item RBRACK ""]
                  ++ [mk_item (closer Paren) ""; mk_item PERIOD ""] ++ [])
         (2 + 3 + 4)) =
    Ret ("f(a[1])", ti').
Proof.
  apply (extract_go_expr_bracketed [mk_item IDENT "x"; mk_item ASSIGN ""]
           "f" Paren
           [mk_item IDENT "a"; mk_item LBRACK ""; mk_item INT "1";
            mk_item RBRACK ""] []); reflexivity.
Defined.
